(** * dependency-db: the range-overlap index of [index.js]

    A shallow embedding of [index.js] (the whole source of the package) and
    the properties of its version codec, range normalizer, overlap filter,
    writer ([Db.prototype.store]) and reader ([Db.prototype.query]).

    The npm modules the file requires are not part of the package.  Those
    whose results the code only passes around are taken as an interface
    ([Modules] below: [lexicographic-integer], [semver], [semver-compare]);
    the key-value store and the LRU cache are modelled as finite maps. *)

From Stdlib Require Import NArith ZArith Ascii String List Lia Bool.
From stdpp Require Import gmap strings list fin_maps sorting.

Local Open Scope N_scope.

(** ** JavaScript strings and their relational comparison *)

(** The two sentinel strings of the source, ['\x00'] and ['\xff']. *)
Definition x00 : string := String "000"%char EmptyString.
Definition xff : string := String "255"%char EmptyString.

(** [a < b] on two strings: code units are compared from the left, and a
    proper prefix is smaller. *)
Fixpoint js_ltb (a b : string) : bool :=
  match a, b with
  | _, EmptyString => false
  | EmptyString, String _ _ => true
  | String x a', String y b' =>
      match N.compare (N_of_ascii x) (N_of_ascii y) with
      | Lt => true
      | Eq => js_ltb a' b'
      | Gt => false
      end
  end.

(** [a > b], [a <= b] and [a >= b] as JavaScript derives them from [<]. *)
Definition js_gtb (a b : string) : bool := js_ltb b a.
Definition js_leb (a b : string) : bool := negb (js_ltb b a).
Definition js_geb (a b : string) : bool := negb (js_ltb a b).

(** [s.indexOf(c) !== -1]. *)
Fixpoint contains (c : ascii) (s : string) : bool :=
  match s with
  | EmptyString => false
  | String x s' => (Ascii.eqb x c || contains c s')%bool
  end.

(** [s.substr(s.lastIndexOf(c) + 1)]: what follows the last occurrence of
    [c]; [lastIndexOf] is [-1] when there is none, and the whole string is
    returned. *)
Fixpoint after_last (c : ascii) (s : string) : string :=
  match s with
  | EmptyString => EmptyString
  | String x s' =>
      if contains c s' then after_last c s'
      else if Ascii.eqb x c then s'
      else s
  end.

(** [p] is an initial segment of [s]. *)
Fixpoint starts_with (p s : string) : bool :=
  match p, s with
  | EmptyString, _ => true
  | String _ _, EmptyString => false
  | String x p', String y s' => (Ascii.eqb x y && starts_with p' s')%bool
  end.

(** Every code unit of [s] lies strictly between [lo] and [hi]. *)
Fixpoint codes_between (lo hi : N) (s : string) : bool :=
  match s with
  | EmptyString => true
  | String x s' =>
      ((lo <? N_of_ascii x) && (N_of_ascii x <? hi) && codes_between lo hi s')%bool
  end.


(** ** Versions, comparators and parsed ranges (objects of [semver]) *)

(** The three numeric fields of a [SemVer] object that the source reads.
    Prerelease and build fields are never read. *)
Record SemVer := { major : N; minor : N; patch : N }.

(** [comparator.operator].  [semver] produces [undefined] for the comparator
    that matches everything, the empty string for equality (it rewrites
    ['='] to the empty string) and the four inequality signs; its comparator
    pattern admits nothing else, so the [default] branches of the [switch]
    in [batchDependencies] and of the [switch] over a lone comparator in
    [normalize] are not reachable.  The comparator that matches everything
    has no version; its [semver] field is never read. *)
Inductive Operator := OpAny | OpEq | OpLt | OpLe | OpGt | OpGe.

Record Comparator := { operator : Operator; semver : SemVer }.

(** A [semver.Range] object: [range] is the formatted text, [set] the
    disjunction of conjunctions of comparators. *)
Record Range := { range : string; set : list (list Comparator) }.

(** [String(comp.operator)], used in error messages. *)
Definition operator_text (o : Operator) : string :=
  match o with
  | OpAny => "undefined"
  | OpEq => EmptyString
  | OpLt => "<"
  | OpLe => "<="
  | OpGt => ">"
  | OpGe => ">="
  end.

(** ** The required npm modules, as an interface *)

(** - [lexi_pack n] is [lexi.pack(n, 'hex')] of [lexicographic-integer];
    - [semver_Range s] is [semver.Range(s)], [None] when it throws;
    - [cmp a b] is [semver-compare], returning [-1], [0] or [1]. *)
Class Modules := {
  lexi_pack : N -> string;
  semver_Range : string -> option Range;
  cmp : string -> string -> Z
}.

(** What the code expects of [lexi.pack(_, 'hex')] on numbers below
    [bound]: lower-case hexadecimal digits only, and numeric order carried
    to string order. *)
Definition pack_is_hex `{Modules} (bound : N) : Prop :=
  forall n, n < bound -> codes_between 47 103 (lexi_pack n) = true.

Definition pack_order_preserving `{Modules} (bound : N) : Prop :=
  forall a b, a < b -> b < bound -> js_ltb (lexi_pack a) (lexi_pack b) = true.

(** Exceptions of the JavaScript code. *)
Inductive exn :=
| Error (message : string)
| TypeError.

Inductive result (A : Type) :=
| Ok (a : A)
| Throw (e : exn).
Arguments Ok {A} a.
Arguments Throw {A} e.

#[global] Instance result_bind : MBind result := fun A B k r =>
  match r with
  | Ok a => k a
  | Throw e => Throw e
  end.

Section Codec.
Context `{Modules}.

(** [lexSemver] *)
Definition lexSemver (semver : SemVer) : string :=
  lexi_pack (major semver) +:+ "!" +:+
  lexi_pack (minor semver) +:+ "!" +:+
  lexi_pack (patch semver).

(** The object literal [{major: v.major, minor: v.minor, patch: v.patch + 1}]
    and the in-place [v.patch++]. *)
Definition inc_patch (v : SemVer) : SemVer :=
  {| major := major v; minor := minor v; patch := patch v + 1 |}.

(** [{major: 0, minor: 0, patch: 0}] *)
Definition zero : SemVer := {| major := 0; minor := 0; patch := 0 |}.

(** *** Write side: the body of [sets.forEach] in [batchDependencies] *)

(** One group is the two-element array [[lowers, uppers]]. *)
Definition Group : Type := list string * list string.

(** The [switch] over one comparator, pushing to [set[0]] and [set[1]]. *)
Definition push_comparator (set : Group) (comparator : Comparator) : Group :=
  match operator comparator with
  | OpAny => (set.1 ++ [lexSemver zero], set.2)
  | OpEq =>
      (set.1 ++ [lexSemver (semver comparator)],
       set.2 ++ [lexSemver (inc_patch (semver comparator))])
  | OpGt | OpGe => (set.1 ++ [lexSemver (semver comparator)], set.2)
  | OpLt | OpLe => (set.1, set.2 ++ [lexSemver (semver comparator)])
  end.

Definition encode_group (comparators : list Comparator) : Group :=
  fold_left push_comparator comparators ([], []).

(** The array [value] built from [semver.Range(range).set]. *)
Definition encode (sets : list (list Comparator)) : list Group :=
  map encode_group sets.

(** *** Read side *)

(** [normalizeLower] *)
Definition normalizeLower (comp : Comparator) : result SemVer :=
  match operator comp with
  | OpGe => Ok (semver comp)
  | OpGt => Ok (inc_patch (semver comp))
  | o => Throw (Error ("Unexpected lower operator: " +:+ operator_text o))
  end.

(** [normalizeUpper] *)
Definition normalizeUpper (comp : Comparator) : result SemVer :=
  match operator comp with
  | OpLt => Ok (semver comp)
  | OpLe => Ok (inc_patch (semver comp))
  | o => Throw (Error ("Unexpected upper operator: " +:+ operator_text o))
  end.

(** [normalize].  The result is the array the source returns: empty, one
    version or two.  On an empty array of comparators [lower] is
    [undefined] and reading [lower.operator] raises a [TypeError]. *)
Definition normalize (comparators : list Comparator) : result (list SemVer) :=
  if (2 <? length comparators)%nat
  then Throw (Error "More than two comparators not supported")
  else
    match comparators with
    | [] => Throw TypeError
    | [lower] =>
        match operator lower with
        | OpAny => Ok []
        | OpEq => Ok [semver lower; inc_patch (semver lower)]
        | OpLt => Ok [zero; semver lower]
        | OpLe => Ok [zero; inc_patch (semver lower)]
        | OpGt => Ok [inc_patch (semver lower)]
        | OpGe => Ok [semver lower]
        end
    | lower :: upper :: _ =>
        l ← normalizeLower lower;
        u ← normalizeUpper upper;
        Ok [l; u]
    end.

(** [norm[0] ? lexSemver(norm[0]) : '\x00'] and
    [norm[1] ? lexSemver(norm[1]) : '\xff'] *)
Definition lquery_of (norm : list SemVer) : string :=
  match norm !! 0%nat with Some v => lexSemver v | None => x00 end.

Definition uquery_of (norm : list SemVer) : string :=
  match norm !! 1%nat with Some v => lexSemver v | None => xff end.

End Codec.

(** The function [match] gives to [range.some]: the test of one group. *)
Definition match_group (lquery uquery : string) (range : Group) : bool :=
  let lower := range.1 in
  let upper := range.2 in
  if ((length lower =? 0)%nat && js_leb uquery x00)%bool then false
  else if ((length upper =? 0)%nat && js_geb lquery xff)%bool then false
  else
    let ok := forallb (fun lower => js_gtb uquery lower) lower in
    if negb ok then false
    else forallb (fun upper => js_ltb lquery upper) upper.

(** [match] (a keyword here, hence the underscore). *)
Definition match_ (range : list Group) (lquery uquery : string) : bool :=
  existsb (match_group lquery uquery) range.

(** ** Manifests, the store and the cache *)

(** A [package.json] as far as the source reads it.  The two dependency
    objects are optional; each is kept as the list of its own keys, in
    [Object.keys] order, with the range text of each. *)
Record Package := {
  name : string;
  version : string;
  dependencies : option (list (string * string));
  devDependencies : option (list (string * string))
}.

(** What the store holds: manifests, index entries and the entries of the
    latest index are written with [valueEncoding: 'json'], the latest
    version number as a plain string. *)
Inductive Value :=
| VPkg (pkg : Package)
| VVersion (version : string)
| VSets (sets : list Group)
| VLatest (version : string) (sets : list Group).

(** The keys of the database schema (the comment at the head of the
    source), written as the source concatenates them. *)
Definition pkg_key (dependent version : string) : string :=
  "!pkg!" +:+ dependent +:+ "@" +:+ version.
Definition pkg_latest_key (dependent : string) : string :=
  "!pkg-latest!" +:+ dependent.
Definition latest_version_key (dependent : string) : string :=
  "!latest-version!" +:+ dependent.
Definition index_key (deptype dependency dependent version : string) : string :=
  "!index!" +:+ deptype +:+ "!" +:+ dependency +:+ "!" +:+ dependent +:+ "@" +:+
  version.
Definition index_latest_key (deptype dependency dependent : string) : string :=
  "!index-latest!" +:+ deptype +:+ "!" +:+ dependency +:+ "!" +:+ dependent.

(** One element of the array given to [db.batch]. *)
Inductive BatchOp :=
| Put (key : string) (value : Value)
| Del (key : string).

(** The database handle: the LevelUP store [this._db] and the module-wide
    [hashlru] cache, each a finite map.  A read of the store finds the key
    or reports it missing, and writes succeed: input and output failures of
    the store are outside the model.  The cache forgets entries when it is
    full; that is the call [CEvict] of the traces below.  The lock
    serialises the callbacks of [store] and of the cleanup; with one
    operation at a time it has no state of its own. *)
Record State := {
  db : gmap string Value;
  lru : gmap string string
}.

(** [db.batch]: the operations take effect in array order. *)
Definition apply_op (m : gmap string Value) (op : BatchOp) : gmap string Value :=
  match op with
  | Put key value => <[key := value]> m
  | Del key => delete key m
  end.

Definition op_key (op : BatchOp) : string :=
  match op with
  | Put key _ => key
  | Del key => key
  end.

(** The operation is a put. *)
Definition is_put (op : BatchOp) : Prop :=
  match op with
  | Put _ _ => True
  | Del _ => False
  end.

Definition apply_batch (batch : list BatchOp) (m : gmap string Value)
  : gmap string Value :=
  fold_left apply_op batch m.

(** [db.createReadStream({gt, lt, limit})]: the entries with
    [gt < key < lt] in ascending key order, at most [limit] of them. *)
Definition key_le (a b : string * Value) : Prop := js_leb a.1 b.1.

Definition in_scan (gt lt : string) (kv : string * Value) : bool :=
  (js_ltb gt kv.1 && js_ltb kv.1 lt)%bool.

Definition createReadStream (m : gmap string Value) (gt lt : string)
    (limit : option nat) : list (string * Value) :=
  let entries := merge_sort key_le (List.filter (in_scan gt lt) (map_to_list m)) in
  match limit with
  | Some (S n) => take (S n) entries
  | _ => entries
  end.

(** The global [escape] function of JavaScript on 8-bit code units: letters,
    digits and [@*_+-./] stay, any other code unit becomes [%XX] with two
    upper-case hexadecimal digits. *)
Definition unescaped (c : ascii) : bool :=
  let n := N_of_ascii c in
  (((65 <=? n) && (n <=? 90)) || ((97 <=? n) && (n <=? 122)) ||
   ((48 <=? n) && (n <=? 57)) ||
   (n =? 64) || (n =? 42) || (n =? 95) || (n =? 43) || (n =? 45) ||
   (n =? 46) || (n =? 47))%bool.

Definition upper_hex_digit (d : N) : ascii :=
  if d <? 10 then ascii_of_N (48 + d) else ascii_of_N (55 + d).

Definition escape_char (c : ascii) : string :=
  if unescaped c then String c EmptyString
  else String "%" (String (upper_hex_digit (N_of_ascii c / 16))
                  (String (upper_hex_digit (N_of_ascii c mod 16)) EmptyString)).

Fixpoint escape (s : string) : string :=
  match s with
  | EmptyString => EmptyString
  | String c s' => escape_char c +:+ escape s'
  end.

(** A string is truthy unless it is empty. *)
Definition truthy (s : string) : bool := negb (String.eqb s EmptyString).

(** [key in obj] for an object parsed from JSON: an own key, or a property
    every object inherits from [Object.prototype]. *)
Definition object_prototype_keys : list string :=
  ["constructor"; "__defineGetter__"; "__defineSetter__"; "hasOwnProperty";
   "__lookupGetter__"; "__lookupSetter__"; "isPrototypeOf";
   "propertyIsEnumerable"; "toString"; "valueOf"; "__proto__";
   "toLocaleString"].

Definition js_in (key : string) (obj : list (string * string)) : bool :=
  (existsb (String.eqb key) (map fst obj) ||
   existsb (String.eqb key) object_prototype_keys)%bool.

(** [opts] of [query].  [opt_gt] is [opts.gt || ''].  [opt_limit] is [None]
    when [opts.limit] is absent; [opts.limit || -1] also turns [0] into "no
    limit". *)
Record Opts := {
  opt_all : bool;
  opt_devDependencies : bool;
  opt_gt : string;
  opt_limit : option nat
}.

(** Errors handed to a callback: LevelUP's not-found, and a [TypeError]
    raised while a record that the writer cannot have stored is taken
    apart. *)
Inductive StreamError :=
| NotFound (key : string)
| BadRecord (key : string).

(** What [query] does: it throws before returning, or it returns a stream
    that emits manifests and may end in an error given to the callback. *)
Inductive Outcome :=
| Thrown (e : exn)
| Streamed (emitted : list Package) (err : option StreamError).

(** What the transform does with one record. *)
Inductive Step :=
| Skip
| Emit (pkg : Package)
| Fail (err : StreamError).

Section Database.
Context `{Modules}.

(** [semverGt] *)
Definition semverGt (a b : string) : bool := Z.eqb (cmp a b) 1.

(** [Db.prototype._getLatestVersion]: the value handed to the callback,
    [None] for [undefined].  A cached value is used when truthy; otherwise
    the store is read and a missing key gives [undefined].  Only [store]
    writes under this key, always a version text; any other value is read
    as missing. *)
Definition db_latest_version (m : gmap string Value) (escaped : string)
  : option string :=
  match m !! latest_version_key escaped with
  | Some (VVersion version) => Some version
  | _ => None
  end.

Definition _getLatestVersion (st : State) (name : string) : option string :=
  match lru st !! name with
  | Some latest =>
      if truthy latest then Some latest
      else db_latest_version (db st) (escape name)
  | None => db_latest_version (db st) (escape name)
  end.

(** [latest ? semverGt(pkg.version, latest) : true] *)
Definition isLatest_of (pkg : Package) (latest : option string) : bool :=
  match latest with
  | Some latest =>
      if truthy latest then semverGt (version pkg) latest else true
  | None => true
  end.

(** The body of [Object.keys(deps).forEach] in [batchDependencies] for one
    dependency: nothing when [semver.Range] throws. *)
Definition batchDependency (pkg : Package) (deptype : string)
    (isLatest : bool) (entry : string * string) : list BatchOp :=
  let dependent := escape (name pkg) in
  let range := entry.2 in
  match semver_Range range with
  | None => []
  | Some parsed =>
      let value := encode (set parsed) in
      let dependency := escape entry.1 in
      let key := index_key deptype dependency dependent (version pkg) in
      let latestKey := index_latest_key deptype dependency dependent in
      Put key (VSets value) ::
      (if isLatest then [Put latestKey (VLatest (version pkg) value)] else [])
  end.

(** [batchDependencies] *)
Definition batchDependencies (pkg : Package)
    (deps : option (list (string * string))) (deptype : string)
    (isLatest : bool) : list BatchOp :=
  let deps := default [] deps in
  flat_map (batchDependency pkg deptype isLatest) deps.

(** The array given to [db.batch] by [store]. *)
Definition store_batch (pkg : Package) (isLatest : bool) : list BatchOp :=
  let dependent := escape (name pkg) in
  batchDependencies pkg (dependencies pkg) "dep" isLatest ++
  batchDependencies pkg (devDependencies pkg) "dev" isLatest ++
  [Put (pkg_key dependent (version pkg)) (VPkg pkg)] ++
  (if isLatest
   then [Put (pkg_latest_key dependent) (VPkg pkg);
         Put (latest_version_key dependent) (VVersion (version pkg))]
   else []).

(** [Db.prototype.store] *)
Definition store (pkg : Package) (st : State) : State :=
  let latest := _getLatestVersion st (name pkg) in
  let isLatest := isLatest_of pkg latest in
  {| db := apply_batch (store_batch pkg isLatest) (db st);
     lru := if isLatest then <[name pkg := version pkg]> (lru st) else lru st |}.

(** [opts.all ? data.value : data.value.sets] *)
Definition sets_of (o : Opts) (value : Value) : option (list Group) :=
  match value with
  | VSets sets => if opt_all o then Some sets else None
  | VLatest _ sets => if opt_all o then None else Some sets
  | _ => None
  end.

(** [deps && name in deps] for the dependencies of the requested kind. *)
Definition still_declares (o : Opts) (name : string) (pkg : Package) : bool :=
  let deps :=
    if opt_devDependencies o then devDependencies pkg else dependencies pkg in
  match deps with
  | Some deps => js_in name deps
  | None => false
  end.

(** The transform of [query] on one record.  [bounds] is [None] for a
    wildcard query and [(lquery, uquery)] otherwise; [name] is already
    escaped. *)
Definition filter (o : Opts) (name : string) (bounds : option (string * string))
    (data : string * Value) (m : gmap string Value)
  : Step * gmap string Value :=
  let passes :=
    match bounds with
    | None => Some true
    | Some (lquery, uquery) =>
        match sets_of o data.2 with
        | Some sets => Some (match_ sets lquery uquery)
        | None => None
        end
    end in
  match passes with
  | None => (Fail (BadRecord data.1), m)
  | Some false => (Skip, m)
  | Some true =>
      let dependent := after_last "!" data.1 in
      let key := (if opt_all o then "!pkg!" else "!pkg-latest!") +:+ dependent in
      match m !! key with
      | None => (Fail (NotFound key), m)
      | Some (VPkg pkg) =>
          if opt_all o then (Emit pkg, m)
          else if still_declares o name pkg then (Emit pkg, m)
          else
            match m !! latest_version_key dependent with
            | None => (Fail (NotFound (latest_version_key dependent)), m)
            | Some (VVersion version') =>
                if String.eqb version' (version pkg)
                then (Skip, delete data.1 m)
                else (Skip, m)
            | Some _ => (Fail (BadRecord (latest_version_key dependent)), m)
            end
      | Some _ => (Fail (BadRecord key), m)
      end
  end.

(** The stream [pump(stream, filter)] collected by [collect]: records go
    through the transform one at a time, and the first error ends it. *)
Fixpoint run_filter (o : Opts) (name : string) (bounds : option (string * string))
    (records : list (string * Value)) (emitted : list Package)
    (m : gmap string Value) : Outcome * gmap string Value :=
  match records with
  | [] => (Streamed emitted None, m)
  | data :: records' =>
      match filter o name bounds data m with
      | (Skip, m') => run_filter o name bounds records' emitted m'
      | (Emit pkg, m') => run_filter o name bounds records' (emitted ++ [pkg]) m'
      | (Fail err, m') => (Streamed emitted (Some err), m')
      end
  end.

(** [keyprefix] *)
Definition keyprefix_of (o : Opts) : string :=
  (if opt_all o then "!index!" else "!index-latest!") +:+
  (if opt_devDependencies o then "dev!" else "dep!").

(** The records of the read stream of [query]. *)
Definition query_records (o : Opts) (name : string) (m : gmap string Value)
  : list (string * Value) :=
  createReadStream m
    (keyprefix_of o +:+ name +:+ "!" +:+ opt_gt o)
    (keyprefix_of o +:+ name +:+ "!" +:+ xff)
    (opt_limit o).

(** The query bounds: [None] for a wildcard, else [normalize] may throw. *)
Definition query_bounds (parsed : Range) : result (option (string * string)) :=
  if String.eqb (range parsed) EmptyString then Ok None
  else
    norm ← normalize (default [] (set parsed !! 0%nat));
    Ok (Some (lquery_of norm, uquery_of norm)).

(** [Db.prototype.query], with the range text as [semver.Range] parses
    it. *)
Definition query (name : string) (range_text : string) (o : Opts) (st : State)
  : Outcome * State :=
  let name := escape name in
  match semver_Range range_text with
  | None => (Thrown TypeError, st)
  | Some parsed =>
      let records := query_records o name (db st) in
      if negb (length (set parsed) =? 1)%nat
      then (Thrown (Error "OR-range queries not supported"), st)
      else
        match query_bounds parsed with
        | Throw e => (Thrown e, st)
        | Ok bounds =>
            let '(out, m') := run_filter o name bounds records [] (db st) in
            (out, {| db := m'; lru := lru st |})
        end
  end.

End Database.

(** The empty database with an empty cache. *)
Definition empty_state : State := {| db := ∅; lru := ∅ |}.

(** ** Notions the statements are written with *)

(** The usual order on version triples. *)
Definition sv_lt (v1 v2 : SemVer) : Prop :=
  major v1 < major v2 \/
  (major v1 = major v2 /\
   (minor v1 < minor v2 \/ (minor v1 = minor v2 /\ patch v1 < patch v2))).

Definition sv_le (v1 v2 : SemVer) : Prop := sv_lt v1 v2 \/ v1 = v2.

(** All three numbers of a version are below [bound]. *)
Definition below (bound : N) (v : SemVer) : Prop :=
  major v < bound /\ minor v < bound /\ patch v < bound.

(** A version triple satisfies a comparator (prerelease tags aside). *)
Definition satisfies (t : SemVer) (c : Comparator) : Prop :=
  match operator c with
  | OpAny => True
  | OpEq => t = semver c
  | OpLt => sv_lt t (semver c)
  | OpLe => sv_le t (semver c)
  | OpGt => sv_lt (semver c) t
  | OpGe => sv_le (semver c) t
  end.

(** Two conjunctions of comparators overlap: one triple satisfies both. *)
Definition overlap (R Q : list Comparator) : Prop :=
  exists t, Forall (satisfies t) R /\ Forall (satisfies t) Q.

(** The overlap test in the words of the specification: the four conditions
    on one group [(lowers, uppers)] for a query interval [(L, U)]. *)
Definition spec_group_overlaps (L U : string) (g : Group) : Prop :=
  ~ (g.2 = [] /\ js_geb L xff = true) /\
  ~ (g.1 = [] /\ js_leb U x00 = true) /\
  Forall (fun l => js_gtb U l = true) g.1 /\
  Forall (fun u => js_ltb L u = true) g.2.

(** The bounds of a single-comparator query in the words of the
    specification: the write-side table with a sentinel on the missing
    side. *)
Definition spec_single_bounds `{Modules} (c : Comparator) : string * string :=
  match operator c with
  | OpAny => (x00, xff)
  | OpEq => (lexSemver (semver c), lexSemver (inc_patch (semver c)))
  | OpGt | OpGe => (lexSemver (semver c), xff)
  | OpLt | OpLe => (x00, lexSemver (semver c))
  end.

(** The bounds [query] computes from the result of [normalize]. *)
Definition bounds_of `{Modules} (norm : list SemVer) : string * string :=
  (lquery_of norm, uquery_of norm).

(** The versions a comparator mentions, with the successor the code may
    pack in its place. *)
Definition comparator_below (bound : N) (c : Comparator) : Prop :=
  operator c = OpAny \/ (below bound (semver c) /\ below bound (inc_patch (semver c))).

(** The packed lower bounds of a group come from versions at or below every
    triple the conjunction accepts; the packed upper bounds from versions
    strictly above it, as long as no comparator is [<=]. *)
Definition lowers_ok `{Modules} (bound : N) (t : SemVer) (set : Group) : Prop :=
  Forall (fun l => exists v, l = lexSemver v /\ below bound v /\ sv_le v t) set.1.

Definition uppers_ok `{Modules} (bound : N) (t : SemVer) (set : Group) : Prop :=
  Forall (fun u => exists v, u = lexSemver v /\ below bound v /\ sv_lt t v) set.2.


(** ** Traces of calls on one database handle *)

(** A call of [store], a call of [query], or the cache dropping a key. *)
Inductive Call :=
| CStore (pkg : Package)
| CQuery (name range_text : string) (o : Opts)
| CEvict (name : string).

Definition run_call `{Modules} (st : State) (c : Call) : State :=
  match c with
  | CStore pkg => store pkg st
  | CQuery name range_text o => (query name range_text o st).2
  | CEvict name => {| db := db st; lru := delete name (lru st) |}
  end.

Definition run_calls `{Modules} (calls : list Call) (st : State) : State :=
  fold_left run_call calls st.

(** Manifests carry a version: the version text is not empty. *)
Definition call_ok (c : Call) : Prop :=
  match c with
  | CStore pkg => version pkg <> EmptyString
  | _ => True
  end.

(** The states a handle reaches from the empty database. *)
Inductive reachable `{Modules} : State -> Prop :=
| reachable_empty : reachable empty_state
| reachable_call st c : reachable st -> call_ok c -> reachable (run_call st c).

(** The three key families that describe the latest version. *)
Definition latest_family (key : string) : bool :=
  (starts_with "!pkg-latest!" key || starts_with "!latest-version!" key ||
   starts_with "!index-latest!" key)%bool.

(** The record passes the overlap test of the transform (a wildcard query
    has no test). *)
Definition passes_filter (o : Opts) (bounds : option (string * string))
    (data : string * Value) : Prop :=
  match bounds with
  | None => True
  | Some (lquery, uquery) =>
      exists sets, sets_of o data.2 = Some sets /\ match_ sets lquery uquery = true
  end.

(** A stale hit of a latest scan: the record passes, the latest manifest of
    its dependent is there, and it no longer declares the dependency. *)
Definition stale_hit (o : Opts) (name : string) (bounds : option (string * string))
    (data : string * Value) (m : gmap string Value) (pkg : Package) : Prop :=
  opt_all o = false /\
  passes_filter o bounds data /\
  m !! ("!pkg-latest!" +:+ after_last "!" data.1) = Some (VPkg pkg) /\
  still_declares o name pkg = false.



(** ** An instance of the interface, for the examples

    The general results below hold for every instance of [Modules].  The
    examples and the concrete runs use the following one. *)

(** *** [lexicographic-integer]

    [pack] writes a number below 251 as one byte, and a larger one as a
    byte giving the length followed by [n - 251] in base 256.  From
    [2^32 + 251] on the library goes through floating point
    ([Math.log], [Math.pow]); that branch is written here with exact
    arithmetic and no result below depends on it. *)
Definition bytesOf (x : N) : list N :=
  [x / 256 / 256 / 256 / 256 / 256 mod 256;
   x / 256 / 256 / 256 / 256 mod 256;
   x / 256 / 256 / 256 mod 256;
   x / 256 / 256 mod 256;
   x / 256 mod 256;
   x mod 256].

Definition pack_integer (n : N) : list N :=
  let max := 251 in
  let x := n - max in
  if n <? max then [n]
  else if x <? 256 then [max; x]
  else if x <? 256 * 256 then [max + 1; x / 256; x mod 256]
  else if x <? 256 * 256 * 256
  then [max + 2; x / 256 / 256; x / 256 mod 256; x mod 256]
  else [max + 3; x / 256 / 256 / 256; x / 256 / 256 mod 256;
        x / 256 mod 256; x mod 256].

Definition pack (n : N) : list N :=
  let max := 251 in
  let x := n - max in
  if n <? max + 256 * 256 * 256 * 256 then pack_integer n
  else
    let exp := N.log2 x - 32 in
    [255] ++ pack_integer exp ++
    bytesOf (if 11 <=? exp then x / 2 ^ (exp - 11) else x * 2 ^ (11 - exp)).

Definition lower_hex_digit (d : N) : ascii :=
  if d <? 10 then ascii_of_N (48 + d) else ascii_of_N (87 + d).

Fixpoint encodeHex (bytes : list N) : string :=
  match bytes with
  | [] => EmptyString
  | b :: bytes' =>
      String (lower_hex_digit (b / 16))
        (String (lower_hex_digit (b mod 16)) (encodeHex bytes'))
  end.

Definition pack_hex (n : N) : string := encodeHex (pack n).

(** The numbers up to which [pack] is computed on integers. *)
Definition pack_integer_bound : N := 251 + 256 * 256 * 256 * 256.

(** *** [semver-compare]

    The library splits both texts at the dots and compares the first three
    parts as numbers, a part that is not a number (NaN) coming after a
    number.  Here a part is a number when it is a decimal numeral (or
    empty, which [Number] reads as 0), of any size. *)
Fixpoint split_dots (cur : string) (s : string) : list string :=
  match s with
  | EmptyString => [cur]
  | String c s' =>
      if Ascii.eqb c "." then cur :: split_dots EmptyString s'
      else split_dots (cur +:+ String c EmptyString) s'
  end.

Fixpoint decimal (acc : N) (s : string) : option N :=
  match s with
  | EmptyString => Some acc
  | String c s' =>
      let n := N_of_ascii c in
      if ((48 <=? n) && (n <=? 57))%bool then decimal (10 * acc + (n - 48)) s'
      else None
  end.

Definition Number_of (part : option string) : option N :=
  match part with
  | Some s => decimal 0 s
  | None => None
  end.

Fixpoint compare_parts (i : nat) (pa pb : list string) (fuel : nat) : Z :=
  match fuel with
  | O => 0%Z
  | S fuel' =>
      match Number_of (pa !! i), Number_of (pb !! i) with
      | Some na, Some nb =>
          if nb <? na then 1%Z
          else if na <? nb then (-1)%Z
          else compare_parts (S i) pa pb fuel'
      | Some _, None => 1%Z
      | None, Some _ => (-1)%Z
      | None, None => compare_parts (S i) pa pb fuel'
      end
  end.

Definition semver_compare (a b : string) : Z :=
  compare_parts 0 (split_dots EmptyString a) (split_dots EmptyString b) 3.

(** *** [semver.Range] on the range texts of the examples *)
Definition sv (a b c : N) : SemVer := {| major := a; minor := b; patch := c |}.
Definition cmp_ (o : Operator) (a b c : N) : Comparator :=
  {| operator := o; semver := sv a b c |}.

Definition example_ranges : list (string * Range) :=
  [("*", {| range := EmptyString; set := [[cmp_ OpAny 0 0 0]] |});
   ("* *", {| range := EmptyString;
              set := [[cmp_ OpAny 0 0 0; cmp_ OpAny 0 0 0]] |});
   ("^1.2.0", {| range := ">=1.2.0 <2.0.0";
                 set := [[cmp_ OpGe 1 2 0; cmp_ OpLt 2 0 0]] |});
   ("~2.3.0", {| range := ">=2.3.0 <2.4.0";
                 set := [[cmp_ OpGe 2 3 0; cmp_ OpLt 2 4 0]] |});
   ("1.0.0", {| range := "1.0.0"; set := [[cmp_ OpEq 1 0 0]] |});
   ("1.5.0", {| range := "1.5.0"; set := [[cmp_ OpEq 1 5 0]] |});
   ("2.3.5", {| range := "2.3.5"; set := [[cmp_ OpEq 2 3 5]] |});
   ("2.4.0", {| range := "2.4.0"; set := [[cmp_ OpEq 2 4 0]] |});
   (">1.2.3", {| range := ">1.2.3"; set := [[cmp_ OpGt 1 2 3]] |});
   (">=1.0.0", {| range := ">=1.0.0"; set := [[cmp_ OpGe 1 0 0]] |});
   ("<1.2.3", {| range := "<1.2.3"; set := [[cmp_ OpLt 1 2 3]] |});
   ("<=1.0.0", {| range := "<=1.0.0"; set := [[cmp_ OpLe 1 0 0]] |});
   ("<2.0.0 >=1.0.0", {| range := "<2.0.0 >=1.0.0";
                         set := [[cmp_ OpLt 2 0 0; cmp_ OpGe 1 0 0]] |});
   (">=1.0.0 <2.0.0 <3.0.0",
    {| range := ">=1.0.0 <2.0.0 <3.0.0";
       set := [[cmp_ OpGe 1 0 0; cmp_ OpLt 2 0 0; cmp_ OpLt 3 0 0]] |});
   ("1.0.0 || 2.0.0", {| range := "1.0.0||2.0.0";
                         set := [[cmp_ OpEq 1 0 0]; [cmp_ OpEq 2 0 0]] |})].

Fixpoint assoc (key : string) (table : list (string * Range)) : option Range :=
  match table with
  | [] => None
  | (k, r) :: table' => if String.eqb key k then Some r else assoc key table'
  end.

Definition example_Range (text : string) : option Range :=
  assoc text example_ranges.

(** ["* *"] is two comparators that match everything; its formatted text is
    empty like that of ["*"]. *)

Definition example_modules : Modules :=
  {| lexi_pack := pack_hex;
     semver_Range := example_Range;
     cmp := semver_compare |}.




(** Byte arrays compared from the left, a proper prefix being smaller. *)
Fixpoint bytes_lt (l1 l2 : list N) : Prop :=
  match l1, l2 with
  | _, [] => False
  | [], _ :: _ => True
  | a :: l1', b :: l2' => a < b \/ (a = b /\ bytes_lt l1' l2')
  end.

(** The [k] low base-256 digits of [x], most significant first. *)
Fixpoint big_endian (k : nat) (x : N) : list N :=
  match k with
  | O => []
  | S k' => big_endian k' (x / 256) ++ [x mod 256]
  end.

(** *** Manifests, options and states of the examples *)
Definition no_opts : Opts :=
  {| opt_all := false; opt_devDependencies := false;
     opt_gt := EmptyString; opt_limit := None |}.

Definition all_opts : Opts :=
  {| opt_all := true; opt_devDependencies := false;
     opt_gt := EmptyString; opt_limit := None |}.

Definition a_1_0_0 : Package :=
  {| name := "a"; version := "1.0.0";
     dependencies := Some [("b", "^1.2.0")]; devDependencies := None |}.

Definition a_2_0_0 : Package :=
  {| name := "a"; version := "2.0.0";
     dependencies := Some []; devDependencies := None |}.

Definition x_1_0_0 : Package :=
  {| name := "x"; version := "1.0.0";
     dependencies := Some [("y", "~2.3.0")]; devDependencies := None |}.

Definition z_1_0_0 : Package :=
  {| name := "z"; version := "1.0.0";
     dependencies := Some [("b", "not-a-range"); ("c", "^1.2.0")];
     devDependencies := None |}.

(** The store after [a@1.0.0], and after [a@2.0.0] on top of it. *)
Definition after_a1 : State := @store example_modules a_1_0_0 empty_state.
Definition after_a2 : State := @store example_modules a_2_0_0 after_a1.

(** ** Further notions for the statements *)

(** A triple lies in the interval [normalize] returned: at or above the
    first version when there is one, strictly below the second when there
    is one. *)
Definition in_interval (norm : list SemVer) (t : SemVer) : Prop :=
  (forall lo, norm !! 0%nat = Some lo -> sv_le lo t) /\
  (forall hi, norm !! 1%nat = Some hi -> sv_lt t hi).

(** The arrays of comparators [normalize] accepts: one comparator, or a
    lower comparator followed by an upper one. *)
Definition accepted_shape (comparators : list Comparator) : Prop :=
  (exists c, comparators = [c]) \/
  (exists lower upper,
     comparators = [lower; upper] /\
     (operator lower = OpGe \/ operator lower = OpGt) /\
     (operator upper = OpLt \/ operator upper = OpLe)).

(** The own keys of both dependency objects are distinct, as the keys of a
    JavaScript object are. *)
Definition keys_distinct (pkg : Package) : Prop :=
  NoDup (map fst (default [] (dependencies pkg))) /\
  NoDup (map fst (default [] (devDependencies pkg))).

(** The latest version number of a dependent comes with its latest
    manifest, of that version and of that name. *)
Definition latest_consistent (m : gmap string Value) : Prop :=
  forall dependent v,
    m !! latest_version_key dependent = Some (VVersion v) ->
    exists pkg,
      m !! pkg_latest_key dependent = Some (VPkg pkg) /\
      version pkg = v /\ escape (name pkg) = dependent.

(** A manifest with a dependency whose name [escape] rewrites, and options
    with a limit, for the runs. *)
Definition t_1_0_0 : Package :=
  {| name := "t"; version := "1.0.0";
     dependencies := Some [("a~b", "^1.2.0")]; devDependencies := None |}.

Definition limit_1 : Opts :=
  {| opt_all := true; opt_devDependencies := false;
     opt_gt := EmptyString; opt_limit := Some 1%nat |}.

Definition a_1_1_0 : Package :=
  {| name := "a"; version := "1.1.0";
     dependencies := Some [("b", "^1.2.0")]; devDependencies := None |}.

(** The store after [t@1.0.0], and after [a@1.0.0] and [a@1.1.0]. *)
Definition after_t : State := @store example_modules t_1_0_0 empty_state.
Definition after_a11 : State := @store example_modules a_1_1_0 after_a1.
Lemma js_ltb_irrefl a : js_ltb a a = false.
Proof.
  induction a as [|x a IH]; simpl; [reflexivity|].
  now rewrite N.compare_refl.
Qed.



Lemma js_ltb_connex a b :
  js_ltb a b = false -> js_ltb b a = false -> a = b.
Proof.
  revert b. induction a as [|x a IH]; intros [|y b]; simpl; try congruence.
  rewrite (N.compare_antisym (N_of_ascii x) (N_of_ascii y)).
  destruct (N.compare_spec (N_of_ascii x) (N_of_ascii y)) as [E|L|G];
    simpl; try congruence.
  intros H1 H2. f_equal; [|now apply IH].
  rewrite <- (ascii_N_embedding x), <- (ascii_N_embedding y). now rewrite E.
Qed.

Lemma js_ltb_app_same p a b : js_ltb (p +:+ a) (p +:+ b) = js_ltb a b.
Proof.
  induction p as [|x p IH]; simpl; [reflexivity|].
  now rewrite N.compare_refl.
Qed.

(** A separator below every code unit of two strings keeps their order
    when something is appended after it: the shorter of a prefix pair meets
    the separator where the longer one still has a greater code unit. *)
Lemma js_ltb_separator (sep : ascii) hi a b x y :
  codes_between (N_of_ascii sep) hi b = true ->
  js_ltb a b = true ->
  js_ltb (a +:+ String sep x) (b +:+ String sep y) = true.
Proof.
  revert b. induction a as [|c a IH]; intros [|d b]; simpl; try congruence.
  - intros Hb _. apply andb_prop in Hb as [Hb _]. apply andb_prop in Hb as [Hb _].
    apply N.ltb_lt in Hb. now apply N.compare_lt_iff in Hb as ->.
  - intros Hb. apply andb_prop in Hb as [_ Hb].
    destruct (N.compare (N_of_ascii c) (N_of_ascii d)); try congruence.
    now apply IH.
Qed.

Lemma js_ltb_x00 s :
  codes_between 0 256 s = true -> s <> EmptyString -> js_ltb x00 s = true.
Proof.
  destruct s as [|c s]; [congruence|]. intros H _.
  cbn [codes_between] in H.
  apply andb_prop in H as [H _]. apply andb_prop in H as [H _].
  apply N.ltb_lt in H. unfold x00. cbn [js_ltb].
  change (N_of_ascii "000") with 0.
  now apply N.compare_lt_iff in H as ->.
Qed.

Lemma js_ltb_xff s :
  codes_between 0 255 s = true -> s <> EmptyString -> js_ltb s xff = true.
Proof.
  destruct s as [|c s]; [congruence|]. intros H _.
  cbn [codes_between] in H.
  apply andb_prop in H as [H _]. apply andb_prop in H as [_ H].
  apply N.ltb_lt in H. unfold xff. cbn [js_ltb].
  change (N_of_ascii "255") with 255.
  now apply N.compare_lt_iff in H as ->.
Qed.

Lemma codes_between_weaken lo hi lo' hi' s :
  lo' <= lo -> hi <= hi' ->
  codes_between lo hi s = true -> codes_between lo' hi' s = true.
Proof.
  intros Hl Hh. induction s as [|c s IH]; simpl; [reflexivity|].
  intros H. apply andb_prop in H as [H Hs]. apply andb_prop in H as [H1 H2].
  apply N.ltb_lt in H1, H2. rewrite IH by assumption.
  assert (E1 : (lo' <? N_of_ascii c) = true) by (apply N.ltb_lt; lia).
  assert (E2 : (N_of_ascii c <? hi') = true) by (apply N.ltb_lt; lia).
  now rewrite E1, E2.
Qed.

Lemma codes_between_app lo hi a b :
  codes_between lo hi (a +:+ b) =
  (codes_between lo hi a && codes_between lo hi b)%bool.
Proof.
  induction a as [|c a IH]; simpl; [reflexivity|].
  rewrite IH. now rewrite andb_assoc.
Qed.


(** * The version codec *)

Lemma sv_lt_irrefl v : ~ sv_lt v v.
Proof. unfold sv_lt. lia. Qed.

Lemma sv_lt_trans a b c : sv_lt a b -> sv_lt b c -> sv_lt a c.
Proof. unfold sv_lt. lia. Qed.

Lemma sv_eq a b :
  major a = major b -> minor a = minor b -> patch a = patch b -> a = b.
Proof. destruct a, b; simpl; congruence. Qed.

Lemma sv_trichotomy a b : sv_lt a b \/ a = b \/ sv_lt b a.
Proof.
  destruct (N.lt_total (major a) (major b)) as [?|[E1|?]];
    [left; left; assumption| |right; right; left; assumption].
  destruct (N.lt_total (minor a) (minor b)) as [?|[E2|?]];
    [left; right; auto| |right; right; right; auto].
  destruct (N.lt_total (patch a) (patch b)) as [?|[E3|?]];
    [left; right; auto| |right; right; right; auto 6].
  right; left. now apply sv_eq.
Qed.

Lemma sv_lt_le_trans a b c : sv_lt a b -> sv_le b c -> sv_lt a c.
Proof. intros H [H' | <-]; [eapply sv_lt_trans; eassumption|assumption]. Qed.

Lemma sv_le_lt_trans a b c : sv_le a b -> sv_lt b c -> sv_lt a c.
Proof. intros [H' | ->] H; [eapply sv_lt_trans; eassumption|assumption]. Qed.

Section CodecFacts.
Context `{Modules}.
Variable bound : N.
Hypothesis Hhex : pack_is_hex bound.
Hypothesis Hord : pack_order_preserving bound.

Lemma lexSemver_lt v1 v2 :
  below bound v1 -> below bound v2 -> sv_lt v1 v2 ->
  js_ltb (lexSemver v1) (lexSemver v2) = true.
Proof.
  intros (B1 & B2 & B3) (C1 & C2 & C3) L. unfold lexSemver.
  assert (Hsep : forall n, n < bound ->
            codes_between (N_of_ascii "!") 103 (lexi_pack n) = true).
  { intros n Hn. eapply codes_between_weaken; [| |apply (Hhex n Hn)];
      change (N_of_ascii "!") with 33; lia. }
  destruct L as [L|[E1 [L|[E2 L]]]].
  - apply js_ltb_separator with (hi := 103); auto.
  - rewrite E1, !js_ltb_app_same.
    apply js_ltb_separator with (hi := 103); auto.
  - rewrite E1, E2, !js_ltb_app_same. auto.
Qed.


Lemma lexSemver_codes v :
  below bound v -> codes_between 0 255 (lexSemver v) = true.
Proof.
  intros (B1 & B2 & B3). unfold lexSemver.
  assert (Hc : forall n, n < bound -> codes_between 0 255 (lexi_pack n) = true).
  { intros n Hn. eapply codes_between_weaken; [| |apply (Hhex n Hn)]; lia. }
  rewrite !codes_between_app, !Hc by assumption. reflexivity.
Qed.

Lemma lexSemver_nonempty v : lexSemver v <> EmptyString.
Proof.
  unfold lexSemver. destruct (lexi_pack (major v)); discriminate.
Qed.

Lemma lexSemver_above_x00 v : below bound v -> js_ltb x00 (lexSemver v) = true.
Proof.
  intros B. apply js_ltb_x00; [|apply lexSemver_nonempty].
  eapply codes_between_weaken; [| |apply (lexSemver_codes v B)]; lia.
Qed.

Lemma lexSemver_below_xff v : below bound v -> js_ltb (lexSemver v) xff = true.
Proof.
  intros B. apply js_ltb_xff; [|apply lexSemver_nonempty].
  now apply lexSemver_codes.
Qed.


End CodecFacts.

(** * The instance: [lexicographic-integer] below [pack_integer_bound] *)

Lemma js_ltb_cons c d a b :
  js_ltb (String c a) (String d b) = true <->
  N_of_ascii c < N_of_ascii d \/ (c = d /\ js_ltb a b = true).
Proof.
  cbn [js_ltb].
  destruct (N.compare_spec (N_of_ascii c) (N_of_ascii d)) as [E|L|G].
  - split; [intros Hab; right; split; [|assumption]|intros [?|[_ ?]]; [lia|assumption]].
    rewrite <- (ascii_N_embedding c), <- (ascii_N_embedding d). now rewrite E.
  - split; [now left|reflexivity].
  - split; [discriminate|intros [?|[-> _]]; lia].
Qed.

Lemma lower_hex_digit_code d :
  d < 16 -> N_of_ascii (lower_hex_digit d) = if d <? 10 then 48 + d else 87 + d.
Proof.
  intros Hd. unfold lower_hex_digit.
  destruct (d <? 10) eqn:E; apply N_ascii_embedding;
    [apply N.ltb_lt in E|apply N.ltb_ge in E]; lia.
Qed.

Lemma lower_hex_digit_lt d1 d2 :
  d1 < d2 -> d2 < 16 ->
  N_of_ascii (lower_hex_digit d1) < N_of_ascii (lower_hex_digit d2).
Proof.
  intros L B. rewrite !lower_hex_digit_code by lia.
  destruct (d1 <? 10) eqn:E1, (d2 <? 10) eqn:E2;
    try apply N.ltb_lt in E1; try apply N.ltb_ge in E1;
    try apply N.ltb_lt in E2; try apply N.ltb_ge in E2; lia.
Qed.

Lemma lower_hex_digit_range d :
  d < 16 -> 47 < N_of_ascii (lower_hex_digit d) < 103.
Proof.
  intros B. rewrite lower_hex_digit_code by lia.
  destruct (d <? 10) eqn:E;
    [apply N.ltb_lt in E|apply N.ltb_ge in E]; lia.
Qed.

Lemma encodeHex_codes bytes :
  Forall (fun b => b < 256) bytes -> codes_between 47 103 (encodeHex bytes) = true.
Proof.
  induction 1 as [|b bytes Hb _ IH]; [reflexivity|].
  cbn [encodeHex codes_between]. rewrite IH.
  assert (H1 : b / 16 < 16) by (apply N.Div0.div_lt_upper_bound; lia).
  assert (H2 : b mod 16 < 16) by (apply N.mod_lt; lia).
  apply lower_hex_digit_range in H1, H2.
  destruct H1 as [A1 A2], H2 as [A3 A4].
  apply N.ltb_lt in A1, A2, A3, A4. now rewrite A1, A2, A3, A4.
Qed.

Lemma encodeHex_lt l1 l2 :
  Forall (fun b => b < 256) l2 ->
  bytes_lt l1 l2 -> js_ltb (encodeHex l1) (encodeHex l2) = true.
Proof.
  revert l2. induction l1 as [|a l1 IH]; intros [|b l2] F2 L;
    try contradiction; [reflexivity|].
  inversion F2 as [|? ? Hb F2']; subst.
  cbn [encodeHex bytes_lt] in *.
  assert (Bh : b / 16 < 16) by (apply N.Div0.div_lt_upper_bound; lia).
  assert (Bl : b mod 16 < 16) by (apply N.mod_lt; lia).
  apply js_ltb_cons. destruct L as [L|[-> L]].
  - destruct (N.lt_total (a / 16) (b / 16)) as [Lt|[E|Gt]].
    + left. now apply lower_hex_digit_lt.
    + right. rewrite E. split; [reflexivity|]. apply js_ltb_cons. left.
      apply lower_hex_digit_lt; [|assumption].
      rewrite (N.Div0.div_mod a 16), (N.Div0.div_mod b 16) in L. lia.
    + exfalso. assert (a / 16 <= b / 16) by (apply N.Div0.div_le_mono; lia). lia.
  - right. split; [reflexivity|]. apply js_ltb_cons. right. split; [reflexivity|].
    now apply IH.
Qed.

Ltac split_bytes :=
  repeat match goal with
  | |- Forall _ (_ :: _) => constructor
  | |- Forall _ [] => constructor
  end.

Ltac euclid := zify; Z.to_euclidean_division_equations; lia.

Lemma pack_integer_bytes n :
  n < pack_integer_bound -> Forall (fun b => b < 256) (pack_integer n).
Proof.
  unfold pack_integer_bound, pack_integer. intros B.
  repeat match goal with
  | |- context [?a <? ?b] => destruct (N.ltb_spec a b)
  end; split_bytes; try euclid.
Qed.

Lemma bytes_lt_snoc l1 l2 a b :
  length l1 = length l2 ->
  bytes_lt l1 l2 \/ (l1 = l2 /\ a < b) ->
  bytes_lt (l1 ++ [a]) (l2 ++ [b]).
Proof.
  revert l2. induction l1 as [|c l1 IH]; intros [|d l2] Hlen; try discriminate.
  - intros [[]|[_ L]]. cbn. now left.
  - cbn [app bytes_lt]. injection Hlen as Hlen.
    intros [[L|[-> L]]|[E L]].
    + now left.
    + right. split; [reflexivity|]. apply IH; auto.
    + injection E as -> ->. right. split; [reflexivity|]. apply IH; auto.
Qed.

Lemma big_endian_length k x : length (big_endian k x) = k.
Proof.
  revert x. induction k as [|k IH]; intros x; [reflexivity|].
  cbn [big_endian]. rewrite length_app, IH. cbn. lia.
Qed.

Lemma big_endian_lt k x y :
  x < y -> y < 256 ^ N.of_nat k -> bytes_lt (big_endian k x) (big_endian k y).
Proof.
  revert x y. induction k as [|k IH]; intros x y L B.
  - change (256 ^ N.of_nat 0) with 1 in B. lia.
  - cbn [big_endian]. apply bytes_lt_snoc.
    { now rewrite !big_endian_length. }
    rewrite Nat2N.inj_succ, N.pow_succ_r' in B.
    assert (Hy : y / 256 < 256 ^ N.of_nat k)
      by (apply N.Div0.div_lt_upper_bound; lia).
    destruct (N.lt_total (x / 256) (y / 256)) as [Lq|[Eq|Gq]].
    + left. now apply IH.
    + right. rewrite Eq. split; [reflexivity|].
      rewrite (N.Div0.div_mod x 256), (N.Div0.div_mod y 256) in L. lia.
    + assert (x / 256 <= y / 256) by (apply N.Div0.div_le_mono; lia). lia.
Qed.

Lemma two_bytes_lt x y :
  x < y -> y < 256 * 256 ->
  bytes_lt [x / 256; x mod 256] [y / 256; y mod 256].
Proof.
  intros L B. pose proof (big_endian_lt 2 x y L B) as P.
  cbn [big_endian app] in P.
  rewrite !(N.mod_small (_ / 256) 256) in P
    by (apply N.Div0.div_lt_upper_bound; lia).
  exact P.
Qed.

Lemma three_bytes_lt x y :
  x < y -> y < 256 * 256 * 256 ->
  bytes_lt [x / 256 / 256; x / 256 mod 256; x mod 256]
           [y / 256 / 256; y / 256 mod 256; y mod 256].
Proof.
  intros L B. pose proof (big_endian_lt 3 x y L B) as P.
  cbn [big_endian app] in P.
  rewrite !(N.mod_small (_ / 256 / 256) 256) in P
    by (do 2 apply N.Div0.div_lt_upper_bound; lia).
  exact P.
Qed.

Lemma four_bytes_lt x y :
  x < y -> y < 256 * 256 * 256 * 256 ->
  bytes_lt [x / 256 / 256 / 256; x / 256 / 256 mod 256; x / 256 mod 256; x mod 256]
           [y / 256 / 256 / 256; y / 256 / 256 mod 256; y / 256 mod 256; y mod 256].
Proof.
  intros L B. pose proof (big_endian_lt 4 x y L B) as P.
  cbn [big_endian app] in P.
  rewrite !(N.mod_small (_ / 256 / 256 / 256) 256) in P
    by (do 3 apply N.Div0.div_lt_upper_bound; lia).
  exact P.
Qed.

Lemma pack_integer_lt n1 n2 :
  n1 < n2 -> n2 < pack_integer_bound ->
  bytes_lt (pack_integer n1) (pack_integer n2).
Proof.
  unfold pack_integer_bound, pack_integer. intros L B.
  repeat match goal with
  | |- context [?a <? ?b] => destruct (N.ltb_spec a b)
  end; cbn [bytes_lt];
  first
    [ left; lia
    | right; split; [reflexivity|];
      first [ left; lia
            | apply two_bytes_lt; lia
            | apply three_bytes_lt; lia
            | apply four_bytes_lt; lia ] ].
Qed.

Lemma pack_below n : n < pack_integer_bound -> pack n = pack_integer n.
Proof.
  unfold pack, pack_integer_bound. intros B.
  destruct (N.ltb_spec n (251 + 256 * 256 * 256 * 256)); [reflexivity|lia].
Qed.

Lemma pack_hex_is_hex : @pack_is_hex example_modules pack_integer_bound.
Proof.
  intros n B. cbn [lexi_pack example_modules]. unfold pack_hex.
  rewrite pack_below by assumption.
  apply encodeHex_codes. now apply pack_integer_bytes.
Qed.

Lemma pack_hex_order_preserving :
  @pack_order_preserving example_modules pack_integer_bound.
Proof.
  intros a b L B. cbn [lexi_pack example_modules]. unfold pack_hex.
  rewrite !pack_below by lia.
  apply encodeHex_lt; [now apply pack_integer_bytes|now apply pack_integer_lt].
Qed.


(** * The overlap test and the two normalizations *)

Lemma forallb_Forall {A} (f : A -> bool) l :
  forallb f l = true <-> Forall (fun x => f x = true) l.
Proof.
  induction l as [|x l IH]; cbn [forallb].
  - split; [constructor|reflexivity].
  - rewrite andb_true_iff, IH. split.
    + intros [? ?]. now constructor.
    + intros F. inversion F; subst. now split.
Qed.

Lemma length_zero_nil {A} (l : list A) : (length l =? 0)%nat = true <-> l = [].
Proof. destruct l; cbn; split; congruence. Qed.

Lemma match_group_spec L U g :
  match_group L U g = true <-> spec_group_overlaps L U g.
Proof.
  destruct g as [lower upper]. unfold match_group, spec_group_overlaps.
  cbn [fst snd]. rewrite <- !forallb_Forall.
  destruct ((length lower =? 0)%nat && js_leb U x00)%bool eqn:E1.
  { apply andb_true_iff in E1 as [E1 E2]. apply length_zero_nil in E1.
    split; [discriminate|]. intros (_ & N2 & _). exfalso. now apply N2. }
  destruct ((length upper =? 0)%nat && js_geb L xff)%bool eqn:E2.
  { apply andb_true_iff in E2 as [E2 E3]. apply length_zero_nil in E2.
    split; [discriminate|]. intros (N1 & _). exfalso. now apply N1. }
  assert (N1 : ~ (upper = [] /\ js_geb L xff = true)).
  { intros [A B]. apply length_zero_nil in A. rewrite A, B in E2. discriminate. }
  assert (N2 : ~ (lower = [] /\ js_leb U x00 = true)).
  { intros [A B]. apply length_zero_nil in A. rewrite A, B in E1. discriminate. }
  destruct (forallb (fun lower0 => js_gtb U lower0) lower) eqn:E3; cbn [negb].
  - split; [intros E4; auto|intros (_ & _ & _ & E4); exact E4].
  - split; [discriminate|intros (_ & _ & E4 & _); discriminate].
Qed.

Lemma match_some_group (range : list Group) (L U : string) :
  match_ range L U = true <->
  exists g, In g range /\ match_group L U g = true.
Proof. unfold match_. apply existsb_exists. Qed.

(** C4. The overlap test: [match] answers [true] exactly when some group
    of the stored disjunction meets the four conditions of the
    specification for the query interval [(L, U)]. *)
Theorem match_iff_some_group (range : list Group) (L U : string) :
  match_ range L U = true <->
  exists g, In g range /\ spec_group_overlaps L U g.
Proof.
  rewrite match_some_group.
  split; intros (g & Hin & Hg); exists g; (split; [assumption|]);
    now apply match_group_spec.
Qed.

(** C3, as the code has it.  For a query of one comparator the bounds are:
    [>v] gives [(pack(inc_patch v), 0xFF)], [>=v] gives [(pack v, 0xFF)],
    [<v] gives [(pack(0.0.0), pack v)], [<=v] gives
    [(pack(0.0.0), pack(inc_patch v))], [=v] gives
    [(pack v, pack(inc_patch v))], and the comparator that matches
    everything gives the two sentinels. *)
Theorem normalize_single_comparator `{Modules} (c : Comparator) :
  exists norm,
    normalize [c] = Ok norm /\
    bounds_of norm =
    match operator c with
    | OpAny => (x00, xff)
    | OpEq => (lexSemver (semver c), lexSemver (inc_patch (semver c)))
    | OpGt => (lexSemver (inc_patch (semver c)), xff)
    | OpGe => (lexSemver (semver c), xff)
    | OpLt => (lexSemver zero, lexSemver (semver c))
    | OpLe => (lexSemver zero, lexSemver (inc_patch (semver c)))
    end.
Proof.
  unfold normalize. cbn [length Nat.ltb Nat.leb].
  destruct (operator c); eexists; (split; [reflexivity|reflexivity]).
Qed.

(** C3 as stated fails on three rows of the table: the bounds of [>1.2.3],
    [<1.2.3] and [<=1.0.0] are not those the write-side table with
    sentinels gives. *)
Lemma single_bounds_differ_from_table :
  (normalize [cmp_ OpGt 1 2 3] = Ok [sv 1 2 4] /\
   @bounds_of example_modules [sv 1 2 4] = ("01!02!04", xff) /\
   @spec_single_bounds example_modules (cmp_ OpGt 1 2 3) = ("01!02!03", xff) /\
   @bounds_of example_modules [sv 1 2 4]
     <> @spec_single_bounds example_modules (cmp_ OpGt 1 2 3)) /\
  (normalize [cmp_ OpLt 1 2 3] = Ok [sv 0 0 0; sv 1 2 3] /\
   @bounds_of example_modules [sv 0 0 0; sv 1 2 3] = ("00!00!00", "01!02!03") /\
   @spec_single_bounds example_modules (cmp_ OpLt 1 2 3) = (x00, "01!02!03") /\
   @bounds_of example_modules [sv 0 0 0; sv 1 2 3]
     <> @spec_single_bounds example_modules (cmp_ OpLt 1 2 3)) /\
  (normalize [cmp_ OpLe 1 0 0] = Ok [sv 0 0 0; sv 1 0 1] /\
   @bounds_of example_modules [sv 0 0 0; sv 1 0 1] = ("00!00!00", "01!00!01") /\
   @spec_single_bounds example_modules (cmp_ OpLe 1 0 0) = (x00, "01!00!00") /\
   @bounds_of example_modules [sv 0 0 0; sv 1 0 1]
     <> @spec_single_bounds example_modules (cmp_ OpLe 1 0 0)).
Proof.
  repeat split; try reflexivity; vm_compute; discriminate.
Qed.

(** * The overlap filter against the meaning of ranges *)

Lemma sv_lt_inc_patch v t : sv_lt v t -> sv_le (inc_patch v) t.
Proof.
  unfold sv_le, sv_lt, inc_patch. cbn [major minor patch]. intros L.
  destruct (N.eq_dec (major v) (major t)) as [E1|];
    [destruct (N.eq_dec (minor v) (minor t)) as [E2|];
     [destruct (N.eq_dec (patch v + 1) (patch t)) as [E3|]|]|];
    try (left; lia).
  right. destruct t; cbn in *. now subst.
Qed.

Lemma sv_le_inc_patch t v : sv_le t v -> sv_lt t (inc_patch v).
Proof.
  intros [L | ->]; unfold sv_lt, inc_patch in *; cbn [major minor patch]; lia.
Qed.

Lemma sv_le_zero t : sv_le zero t.
Proof.
  destruct (sv_trichotomy zero t) as [L|[E|G]]; [now left|now right|].
  unfold sv_lt, zero in G. cbn [major minor patch] in G. lia.
Qed.

Lemma sv_le_refl t : sv_le t t.
Proof. now right. Qed.

(** What [normalize] returns bounds every triple the query accepts: the
    first version from below, inclusive, and the second from above,
    exclusive. *)
Lemma normalize_sound Q norm t :
  normalize Q = Ok norm -> Forall (satisfies t) Q ->
  (forall lo, norm !! 0%nat = Some lo -> sv_le lo t) /\
  (forall hi, norm !! 1%nat = Some hi -> sv_lt t hi).
Proof.
  unfold normalize. destruct Q as [|l [|u [|w Q]]]; cbn [length Nat.ltb Nat.leb];
    try discriminate.
  - intros E F. inversion F as [|? ? S _]; subst. unfold satisfies in S.
    destruct (operator l); injection E as <-; split; intros b Hb;
      try discriminate; injection Hb as <-;
      auto using sv_le_zero, sv_lt_inc_patch, sv_le_inc_patch, sv_le_refl.
    + rewrite S. apply sv_le_refl.
    + rewrite S. apply sv_le_inc_patch, sv_le_refl.
  - intros E F. inversion F as [|? ? Sl F']; subst.
    inversion F' as [|? ? Su _]; subst. unfold satisfies in Sl, Su.
    unfold normalizeLower, normalizeUpper in E.
    destruct (operator l); try discriminate;
      destruct (operator u); try discriminate;
      injection E as <-; split; intros b Hb; injection Hb as <-;
      auto using sv_lt_inc_patch, sv_le_inc_patch.
Qed.

Lemma normalize_below bound Q norm :
  normalize Q = Ok norm -> Forall (comparator_below bound) Q ->
  Forall (below bound) norm.
Proof.
  unfold normalize. destruct Q as [|l [|u [|w Q]]]; cbn [length Nat.ltb Nat.leb];
    try discriminate.
  - intros E F. inversion F as [|? ? [A|[B1 B2]] _]; subst.
    + rewrite A in E. injection E as <-. apply List.Forall_nil.
    + assert (Z0 : below bound zero).
      { destruct B2 as (? & ? & ?). unfold below, zero, inc_patch in *.
        cbn [major minor patch] in *. lia. }
      destruct (operator l); injection E as <-;
        repeat (apply List.Forall_cons; [assumption|]); apply List.Forall_nil.
  - intros E F. inversion F as [|? ? Bl F']; subst.
    inversion F' as [|? ? Bu _]; subst.
    unfold normalizeLower, normalizeUpper in E.
    destruct Bl as [A|[Bl1 Bl2]], Bu as [A'|[Bu1 Bu2]];
      try (rewrite A in E); try (rewrite A' in E); try discriminate;
      destruct (operator l); try discriminate;
      destruct (operator u); try discriminate;
      injection E as <-;
      repeat (apply List.Forall_cons; [assumption|]); apply List.Forall_nil.
Qed.

Section OverlapFacts.
Context `{Modules}.
Variable bound : N.
Hypothesis Hhex : pack_is_hex bound.
Hypothesis Hord : pack_order_preserving bound.

Lemma Forall_snoc {A} (P : A -> Prop) l x :
  Forall P l -> P x -> Forall P (l ++ [x]).
Proof.
  intros F Hx. apply Forall_app. split; [assumption|].
  apply List.Forall_cons; [assumption|apply List.Forall_nil].
Qed.

Lemma push_comparator_ok t set c :
  lowers_ok bound t set -> uppers_ok bound t set ->
  comparator_below bound c -> 0 < bound -> operator c <> OpLe -> satisfies t c ->
  lowers_ok bound t (push_comparator set c) /\ uppers_ok bound t (push_comparator set c).
Proof.
  unfold lowers_ok, uppers_ok, push_comparator, satisfies.
  intros Lo Up B Pos NoLe S.
  assert (Z0 : below bound zero)
    by (unfold below, zero; cbn [major minor patch]; lia).
  assert (Any : Forall (fun l => exists v, l = lexSemver v /\ below bound v /\ sv_le v t)
                  (set.1 ++ [lexSemver zero])).
  { apply Forall_snoc; [assumption|]. exists zero. auto using sv_le_zero. }
  destruct B as [A|[B1 B2]]; [rewrite A; cbn [fst snd]; now split|].
  destruct (operator c); cbn [fst snd]; try congruence.
  - now split.
  - subst t. split; apply Forall_snoc; try assumption.
    + exists (semver c). auto using sv_le_refl.
    + exists (inc_patch (semver c)). auto using sv_le_inc_patch, sv_le_refl.
  - split; [assumption|]. apply Forall_snoc; [assumption|].
    exists (semver c). auto.
  - split; [|assumption]. apply Forall_snoc; [assumption|].
    exists (semver c). split; [reflexivity|]. split; [assumption|].
    unfold sv_le. now left.
  - split; [|assumption]. apply Forall_snoc; [assumption|].
    exists (semver c). auto.
Qed.

Lemma fold_push_ok t comps set :
  lowers_ok bound t set -> uppers_ok bound t set -> 0 < bound ->
  Forall (comparator_below bound) comps ->
  Forall (fun c => operator c <> OpLe) comps ->
  Forall (satisfies t) comps ->
  lowers_ok bound t (fold_left push_comparator comps set) /\
  uppers_ok bound t (fold_left push_comparator comps set).
Proof.
  revert set. induction comps as [|c comps IH]; intros set Lo Up Pos B NoLe S.
  - now split.
  - inversion B; inversion NoLe; inversion S; subst. cbn [fold_left].
    destruct (push_comparator_ok t set c) as [Lo' Up']; auto.
Qed.

(** No false negative as long as the stored range has no [<=]: when a
    group of the stored disjunction and the query have a triple in common,
    [match] answers [true]. *)
Theorem match_complete_without_le (sets : list (list Comparator))
    (R Q : list Comparator) (norm : list SemVer) :
  0 < bound ->
  In R sets ->
  Forall (comparator_below bound) R ->
  Forall (fun c => operator c <> OpLe) R ->
  Forall (comparator_below bound) Q ->
  normalize Q = Ok norm ->
  overlap R Q ->
  match_ (encode sets) (lquery_of norm) (uquery_of norm) = true.
Proof.
  intros Pos Hin BR NoLe BQ EQ (t & SR & SQ).
  apply match_some_group. exists (encode_group R). split.
  { unfold encode. now apply in_map. }
  apply match_group_spec.
  destruct (normalize_sound Q norm t EQ SQ) as [Hlo Hhi].
  pose proof (normalize_below bound Q norm EQ BQ) as Bn.
  assert (Bnth : forall i v, norm !! i = Some v -> below bound v).
  { intros i v Hv. rewrite Forall_forall in Bn. apply Bn.
    eapply list_elem_of_lookup_2. eassumption. }
  assert (Lo0 : lowers_ok bound t ([], [])) by apply List.Forall_nil.
  assert (Up0 : uppers_ok bound t ([], [])) by apply List.Forall_nil.
  destruct (fold_push_ok t R ([], []) Lo0 Up0 Pos BR NoLe SR) as [Lo Up].
  fold (encode_group R) in Lo, Up. unfold lowers_ok, uppers_ok in Lo, Up.
  assert (HL : js_ltb (lquery_of norm) xff = true).
  { unfold lquery_of. destruct (norm !! 0%nat) eqn:E0; [|reflexivity].
    apply (lexSemver_below_xff bound Hhex). eauto. }
  assert (HU : js_ltb x00 (uquery_of norm) = true).
  { unfold uquery_of. destruct (norm !! 1%nat) eqn:E1; [|reflexivity].
    apply (lexSemver_above_x00 bound Hhex). eauto. }
  unfold spec_group_overlaps, js_geb, js_leb, js_gtb.
  rewrite HL, HU. cbn [negb]. repeat split.
  - intros [_ ?]. discriminate.
  - intros [_ ?]. discriminate.
  - eapply Forall_impl; [exact Lo|]. cbn beta.
    intros l (v & -> & Bv & Lv). unfold uquery_of.
    destruct (norm !! 1%nat) as [hi|] eqn:E1.
    + apply (lexSemver_lt bound Hhex Hord); eauto.
      eapply sv_le_lt_trans; eauto.
    + now apply (lexSemver_below_xff bound Hhex).
  - eapply Forall_impl; [exact Up|]. cbn beta.
    intros u (v & -> & Bv & Lv). unfold lquery_of.
    destruct (norm !! 0%nat) as [lo|] eqn:E0.
    + apply (lexSemver_lt bound Hhex Hord); eauto.
      eapply sv_le_lt_trans; eauto.
    + now apply (lexSemver_above_x00 bound Hhex).
Qed.

End OverlapFacts.

(** C1 at the failing input.  The stored range [<=1.0.0] and the query
    [1.0.0] have the triple 1.0.0 in common, and yet [match] on the stored
    encoding and the query bounds answers [false]: the write side packs the
    bound of [<=] itself as an exclusive upper bound. *)
Theorem overlap_missed_for_inclusive_upper :
  let R := [cmp_ OpLe 1 0 0] in
  let Q := [cmp_ OpEq 1 0 0] in
  overlap R Q /\
  normalize Q = Ok [sv 1 0 0; sv 1 0 1] /\
  @encode example_modules [R] = [([], ["01!00!00"])] /\
  @bounds_of example_modules [sv 1 0 0; sv 1 0 1] = ("01!00!00", "01!00!01") /\
  match_ (@encode example_modules [R])
         (@lquery_of example_modules [sv 1 0 0; sv 1 0 1])
         (@uquery_of example_modules [sv 1 0 0; sv 1 0 1]) = false.
Proof.
  cbn zeta. split; [|repeat split; vm_compute; reflexivity].
  exists (sv 1 0 0). split.
  - apply List.Forall_cons; [|apply List.Forall_nil]. now right.
  - apply List.Forall_cons; [|apply List.Forall_nil]. reflexivity.
Qed.

(** * Keys: prefixes, key families and [escape] *)

Lemma append_cons c a b : String c a +:+ b = String c (a +:+ b).
Proof. reflexivity. Qed.

Lemma append_nil_l s : EmptyString +:+ s = s.
Proof. reflexivity. Qed.

Lemma append_assoc a b c : (a +:+ b) +:+ c = a +:+ (b +:+ c).
Proof.
  induction a as [|x a IH]; [reflexivity|].
  rewrite !append_cons. now rewrite IH.
Qed.

Lemma append_length a b :
  String.length (a +:+ b) = (String.length a + String.length b)%nat.
Proof.
  induction a as [|x a IH]; [reflexivity|].
  rewrite append_cons. cbn [String.length]. now rewrite IH.
Qed.

Lemma append_inv_head p a b : p +:+ a = p +:+ b -> a = b.
Proof.
  induction p as [|x p IH]; [trivial|].
  rewrite !append_cons. intros E. injection E as E. auto.
Qed.

Lemma append_inv_tail a b s : a +:+ s = b +:+ s -> a = b.
Proof.
  revert b. induction a as [|x a IH]; intros [|y b] E.
  - reflexivity.
  - apply (f_equal String.length) in E.
    rewrite append_nil_l, append_length in E. cbn [String.length] in E. lia.
  - apply (f_equal String.length) in E.
    rewrite append_nil_l, append_length in E. cbn [String.length] in E. lia.
  - rewrite !append_cons in E. injection E as -> E. f_equal. auto.
Qed.

Lemma starts_with_append p s : starts_with p (p +:+ s) = true.
Proof.
  induction p as [|x p IH]; [reflexivity|].
  rewrite append_cons. cbn [starts_with]. now rewrite Ascii.eqb_refl.
Qed.

Lemma starts_with_append_l a b k :
  starts_with (a +:+ b) k = true -> starts_with a k = true.
Proof.
  revert k. induction a as [|x a IH]; intros k; [reflexivity|].
  rewrite append_cons. destruct k as [|y k]; cbn [starts_with]; [trivial|].
  intros E. apply andb_true_iff in E as [-> E]. cbn [andb]. auto.
Qed.

Lemma starts_with_incomparable p q s :
  starts_with p q = false -> starts_with q p = false ->
  starts_with p (q +:+ s) = false.
Proof.
  revert q. induction p as [|x p IH]; intros [|y q]; cbn [starts_with];
    try discriminate.
  rewrite append_cons. cbn [starts_with].
  rewrite (Ascii.eqb_sym y x).
  destruct (Ascii.eqb x y); cbn [andb]; auto.
Qed.

(** Two strings that start differently are different. *)
Lemma starts_with_differ p k1 k2 :
  starts_with p k1 = true -> starts_with p k2 = false -> k1 <> k2.
Proof. intros E1 E2 ->. congruence. Qed.

(** A key strictly between [p +:+ g] and [p +:+ '\xff'] starts with
    [p]. *)
Lemma scan_prefix p g k :
  js_ltb (p +:+ g) k = true -> js_ltb k (p +:+ xff) = true ->
  starts_with p k = true.
Proof.
  revert k. induction p as [|x p IH]; intros k; [reflexivity|].
  rewrite !append_cons. destruct k as [|y k]; cbn [js_ltb starts_with];
    [discriminate|].
  rewrite (N.compare_antisym (N_of_ascii y) (N_of_ascii x)).
  destruct (N.compare_spec (N_of_ascii y) (N_of_ascii x)) as [E|L|G];
    cbn [CompOpp]; try discriminate.
  intros H1 H2.
  assert (Exy : x = y).
  { rewrite <- (ascii_N_embedding x), <- (ascii_N_embedding y). now rewrite E. }
  subst y. rewrite Ascii.eqb_refl. cbn [andb]. auto.
Qed.

(** ** [escape] is injective *)

Lemma upper_hex_digit_code d :
  d < 16 -> N_of_ascii (upper_hex_digit d) = if d <? 10 then 48 + d else 55 + d.
Proof.
  intros Hd. unfold upper_hex_digit.
  destruct (d <? 10) eqn:E; apply N_ascii_embedding;
    [apply N.ltb_lt in E|apply N.ltb_ge in E]; lia.
Qed.

Lemma upper_hex_digit_inj d1 d2 :
  d1 < 16 -> d2 < 16 -> upper_hex_digit d1 = upper_hex_digit d2 -> d1 = d2.
Proof.
  intros B1 B2 E. apply (f_equal N_of_ascii) in E.
  rewrite !upper_hex_digit_code in E by assumption.
  destruct (d1 <? 10) eqn:E1, (d2 <? 10) eqn:E2;
    try apply N.ltb_lt in E1; try apply N.ltb_ge in E1;
    try apply N.ltb_lt in E2; try apply N.ltb_ge in E2; lia.
Qed.

Lemma N_of_ascii_inj c1 c2 : N_of_ascii c1 = N_of_ascii c2 -> c1 = c2.
Proof.
  intros E. rewrite <- (ascii_N_embedding c1), <- (ascii_N_embedding c2).
  now rewrite E.
Qed.

Lemma escape_char_inj c1 c2 r1 r2 :
  escape_char c1 +:+ r1 = escape_char c2 +:+ r2 -> c1 = c2 /\ r1 = r2.
Proof.
  unfold escape_char.
  pose proof (N_ascii_bounded c1) as B1. pose proof (N_ascii_bounded c2) as B2.
  destruct (unescaped c1) eqn:U1, (unescaped c2) eqn:U2;
    rewrite ?append_cons, ?append_nil_l; intros E.
  - injection E as -> ->. now split.
  - injection E as -> _. discriminate.
  - injection E as <- _. discriminate.
  - injection E as Eh El ->. split; [|reflexivity].
    apply upper_hex_digit_inj in Eh, El;
      try (apply N.Div0.div_lt_upper_bound; lia);
      try (apply N.mod_lt; lia).
    apply N_of_ascii_inj.
    rewrite (N.Div0.div_mod (N_of_ascii c1) 16), (N.Div0.div_mod (N_of_ascii c2) 16).
    now rewrite Eh, El.
Qed.

Lemma escape_char_nonempty c r : escape_char c +:+ r <> EmptyString.
Proof. unfold escape_char. destruct (unescaped c); discriminate. Qed.

Lemma escape_inj s1 s2 : escape s1 = escape s2 -> s1 = s2.
Proof.
  revert s2. induction s1 as [|c1 s1 IH]; intros [|c2 s2]; cbn [escape]; intros E.
  - reflexivity.
  - symmetry in E. now apply escape_char_nonempty in E.
  - now apply escape_char_nonempty in E.
  - apply escape_char_inj in E as [-> E]. f_equal. auto.
Qed.

(** ** The key families are apart *)

Lemma index_key_family t d n v : starts_with "!index!" (index_key t d n v) = true.
Proof. apply starts_with_append. Qed.

Lemma index_latest_key_family t d n :
  starts_with "!index-latest!" (index_latest_key t d n) = true.
Proof. apply starts_with_append. Qed.

Lemma pkg_key_family n v : starts_with "!pkg!" (pkg_key n v) = true.
Proof. apply starts_with_append. Qed.

Lemma pkg_latest_key_family n : starts_with "!pkg-latest!" (pkg_latest_key n) = true.
Proof. apply starts_with_append. Qed.

Lemma latest_version_key_family n :
  starts_with "!latest-version!" (latest_version_key n) = true.
Proof. apply starts_with_append. Qed.

(** A key of one family does not start with the prefix of another. *)
Lemma family_apart p q k :
  starts_with p q = false -> starts_with q p = false ->
  starts_with q k = true -> starts_with p k = false.
Proof.
  revert q k. induction p as [|x p IH]; intros [|y q] [|z k];
    cbn [starts_with]; try discriminate; try reflexivity.
  intros A B C. apply andb_true_iff in C as [C1 C2].
  apply Ascii.eqb_eq in C1 as <-.
  rewrite (Ascii.eqb_sym y x) in B.
  destruct (Ascii.eqb x y); cbn [andb] in *; eauto.
Qed.

Lemma latest_family_index k :
  starts_with "!index!" k = true -> latest_family k = false.
Proof.
  intros E. unfold latest_family.
  rewrite !(family_apart _ "!index!" k) by (reflexivity || assumption).
  reflexivity.
Qed.

Lemma latest_family_pkg k : starts_with "!pkg!" k = true -> latest_family k = false.
Proof.
  intros E. unfold latest_family.
  rewrite !(family_apart _ "!pkg!" k) by (reflexivity || assumption).
  reflexivity.
Qed.

(** * Batches *)

Lemma apply_batch_app b1 b2 m :
  apply_batch (b1 ++ b2) m = apply_batch b2 (apply_batch b1 m).
Proof. unfold apply_batch. apply fold_left_app. Qed.

Lemma apply_op_other op m k : op_key op <> k -> apply_op m op !! k = m !! k.
Proof.
  destruct op as [key value|key]; cbn [op_key apply_op]; intros Hne.
  - now apply lookup_insert_ne.
  - now apply lookup_delete_ne.
Qed.

Lemma apply_batch_notin batch m k :
  (forall op, In op batch -> op_key op <> k) ->
  apply_batch batch m !! k = m !! k.
Proof.
  revert m. induction batch as [|op batch IH]; intros m Hall; [reflexivity|].
  cbn [apply_batch fold_left]. fold (apply_batch batch (apply_op m op)).
  rewrite IH by (intros; apply Hall; now right).
  apply apply_op_other, Hall. now left.
Qed.

Lemma apply_batch_changed batch m k :
  apply_batch batch m !! k <> m !! k -> exists op, In op batch /\ op_key op = k.
Proof.
  revert m. induction batch as [|op batch IH]; intros m Hne; [now elim Hne|].
  cbn [apply_batch fold_left] in Hne. fold (apply_batch batch (apply_op m op)) in Hne.
  destruct (decide (op_key op = k)) as [E|N].
  - exists op. split; [now left|assumption].
  - destruct (IH (apply_op m op)) as (op' & Hin & Hk).
    + now rewrite (apply_op_other op m k N).
    + exists op'. split; [now right|assumption].
Qed.

(** When every operation of a batch on key [k] is the same [Put k v], and
    there is one, the batch leaves [v] under [k]. *)
Lemma apply_batch_unique k v batch m :
  In (Put k v) batch ->
  (forall op, In op batch -> op_key op = k -> op = Put k v) ->
  apply_batch batch m !! k = Some v.
Proof.
  induction batch as [|op batch IH] using rev_ind; intros Hin Huniq; [elim Hin|].
  rewrite apply_batch_app. cbn [apply_batch fold_left].
  destruct (decide (op_key op = k)) as [E|N].
  - assert (Eop : op = Put k v).
    { apply Huniq; [|assumption]. apply in_or_app. right. now left. }
    rewrite Eop. cbn [apply_op]. apply lookup_insert_eq.
  - rewrite apply_op_other by assumption. apply IH.
    + apply in_app_or in Hin as [Hin|[Eop|[]]]; [assumption|].
      elim N. now rewrite Eop.
    + intros op' Hin' Hk. apply Huniq; [|assumption]. apply in_or_app. now left.
Qed.

Lemma apply_batch_puts batch m k :
  (forall op, In op batch -> is_put op) ->
  is_Some (m !! k) -> is_Some (apply_batch batch m !! k).
Proof.
  revert m. induction batch as [|op batch IH]; intros m Hall Hk; [assumption|].
  cbn [apply_batch fold_left]. apply IH; [intros; apply Hall; now right|].
  assert (Hop : is_put op) by (apply Hall; now left).
  destruct op as [key value|key]; [|elim Hop]. cbn [apply_op].
  rewrite lookup_insert. destruct (decide (key = k)); [eauto|assumption].
Qed.

(** * The writer *)

Lemma NoDup_fst_unique {A B} (l : list (A * B)) a b b' :
  NoDup (map fst l) -> In (a, b) l -> In (a, b') l -> b = b'.
Proof.
  induction l as [|[x y] l IH]; cbn [map fst]; intros ND H1 H2; [elim H1|].
  apply NoDup_cons in ND as [Hx ND].
  assert (Hfst : forall z, In (x, z) l -> False).
  { intros z Hz. apply Hx. apply list_elem_of_In.
    change x with (fst (x, z)). now apply in_map. }
  destruct H1 as [E1|H1], H2 as [E2|H2].
  - congruence.
  - injection E1 as -> ->. now apply Hfst in H2.
  - injection E2 as -> ->. now apply Hfst in H1.
  - eauto.
Qed.

Lemma deptype_apart x y : "dep" +:+ x <> "dev" +:+ y.
Proof. rewrite !append_cons. discriminate. Qed.

Lemma index_key_inj t t' d d' n v :
  t = "dep" \/ t = "dev" -> t' = "dep" \/ t' = "dev" ->
  index_key t d n v = index_key t' d' n v -> t = t' /\ d = d'.
Proof.
  unfold index_key. intros [-> | ->] [-> | ->] E; apply append_inv_head in E.
  - split; [reflexivity|]. do 2 apply append_inv_head in E.
    now apply append_inv_tail in E.
  - now apply deptype_apart in E.
  - symmetry in E. now apply deptype_apart in E.
  - split; [reflexivity|]. do 2 apply append_inv_head in E.
    now apply append_inv_tail in E.
Qed.

Lemma index_latest_key_inj t t' d d' n :
  t = "dep" \/ t = "dev" -> t' = "dep" \/ t' = "dev" ->
  index_latest_key t d n = index_latest_key t' d' n -> t = t' /\ d = d'.
Proof.
  unfold index_latest_key. intros [-> | ->] [-> | ->] E; apply append_inv_head in E.
  - split; [reflexivity|]. do 2 apply append_inv_head in E.
    now apply append_inv_tail in E.
  - now apply deptype_apart in E.
  - symmetry in E. now apply deptype_apart in E.
  - split; [reflexivity|]. do 2 apply append_inv_head in E.
    now apply append_inv_tail in E.
Qed.

Lemma key_family_clash p q k1 k2 :
  k1 = k2 ->
  starts_with p k1 = true -> starts_with q k2 = true ->
  starts_with p q = false -> starts_with q p = false -> False.
Proof.
  intros E F1 F2 A B. subst k2.
  rewrite (family_apart p q k1 A B F2) in F1. discriminate.
Qed.

Ltac family :=
  first [apply index_key_family | apply index_latest_key_family
        | apply pkg_key_family | apply pkg_latest_key_family
        | apply latest_version_key_family].

Ltac clash Hkey :=
  exfalso; eapply (key_family_clash _ _ _ _ Hkey);
  [family | family | reflexivity | reflexivity].

Section StoreFacts.
Context `{Modules}.

Lemma batchDependencies_in pkg deps t isLatest op :
  In op (batchDependencies pkg deps t isLatest) ->
  exists d r parsed,
    In (d, r) (default [] deps) /\ semver_Range r = Some parsed /\
    (op = Put (index_key t (escape d) (escape (name pkg)) (version pkg))
              (VSets (encode (set parsed))) \/
     (isLatest = true /\
      op = Put (index_latest_key t (escape d) (escape (name pkg)))
               (VLatest (version pkg) (encode (set parsed))))).
Proof.
  unfold batchDependencies. rewrite in_flat_map.
  intros ([d r] & Hin & Hop). unfold batchDependency in Hop. cbn [fst snd] in Hop.
  destruct (semver_Range r) as [parsed|] eqn:E; [|elim Hop].
  exists d, r, parsed. split; [assumption|]. split; [assumption|].
  destruct Hop as [<-|Hop]; [now left|].
  destruct isLatest; [|elim Hop]. destruct Hop as [<-|[]]. right. now split.
Qed.

Lemma batchDependencies_has pkg deps t isLatest d r parsed :
  In (d, r) (default [] deps) -> semver_Range r = Some parsed ->
  In (Put (index_key t (escape d) (escape (name pkg)) (version pkg))
          (VSets (encode (set parsed))))
     (batchDependencies pkg deps t isLatest) /\
  (isLatest = true ->
   In (Put (index_latest_key t (escape d) (escape (name pkg)))
           (VLatest (version pkg) (encode (set parsed))))
      (batchDependencies pkg deps t isLatest)).
Proof.
  intros Hin E. unfold batchDependencies. rewrite !in_flat_map.
  split; [|intros ->]; exists (d, r); (split; [assumption|]);
    unfold batchDependency; cbn [fst snd]; rewrite E; cbn; auto.
Qed.

(** The operations of the batch of [store], one by one. *)
Lemma store_batch_in pkg isLatest op :
  In op (store_batch pkg isLatest) ->
  (exists t d r parsed,
     ((t = "dep" /\ In (d, r) (default [] (dependencies pkg))) \/
      (t = "dev" /\ In (d, r) (default [] (devDependencies pkg)))) /\
     semver_Range r = Some parsed /\
     (op = Put (index_key t (escape d) (escape (name pkg)) (version pkg))
               (VSets (encode (set parsed))) \/
      (isLatest = true /\
       op = Put (index_latest_key t (escape d) (escape (name pkg)))
                (VLatest (version pkg) (encode (set parsed)))))) \/
  op = Put (pkg_key (escape (name pkg)) (version pkg)) (VPkg pkg) \/
  (isLatest = true /\
   (op = Put (pkg_latest_key (escape (name pkg))) (VPkg pkg) \/
    op = Put (latest_version_key (escape (name pkg))) (VVersion (version pkg)))).
Proof.
  unfold store_batch. rewrite !in_app_iff.
  intros [Hin|[Hin|[Hin|Hin]]].
  - apply batchDependencies_in in Hin as (d & r & parsed & Hd & E & Hop).
    left. exists "dep", d, r, parsed. auto.
  - apply batchDependencies_in in Hin as (d & r & parsed & Hd & E & Hop).
    left. exists "dev", d, r, parsed. auto.
  - destruct Hin as [<-|[]]. auto.
  - destruct isLatest; [|elim Hin].
    destruct Hin as [<-|[<-|[]]]; auto.
Qed.

Lemma store_batch_pkg pkg isLatest :
  In (Put (pkg_key (escape (name pkg)) (version pkg)) (VPkg pkg))
     (store_batch pkg isLatest).
Proof. unfold store_batch. rewrite !in_app_iff. right. right. left. now left. Qed.

Lemma store_batch_latest pkg :
  In (Put (pkg_latest_key (escape (name pkg))) (VPkg pkg)) (store_batch pkg true) /\
  In (Put (latest_version_key (escape (name pkg))) (VVersion (version pkg)))
     (store_batch pkg true).
Proof.
  unfold store_batch. rewrite !in_app_iff. split; right; right; right; cbn; auto.
Qed.

Lemma store_batch_index pkg isLatest t d r parsed :
  (t = "dep" /\ In (d, r) (default [] (dependencies pkg))) \/
  (t = "dev" /\ In (d, r) (default [] (devDependencies pkg))) ->
  semver_Range r = Some parsed ->
  In (Put (index_key t (escape d) (escape (name pkg)) (version pkg))
          (VSets (encode (set parsed))))
     (store_batch pkg isLatest) /\
  (isLatest = true ->
   In (Put (index_latest_key t (escape d) (escape (name pkg)))
           (VLatest (version pkg) (encode (set parsed))))
      (store_batch pkg isLatest)).
Proof.
  intros [[-> Hin]|[-> Hin]] E; unfold store_batch; rewrite !in_app_iff.
  - destruct (batchDependencies_has pkg (dependencies pkg) "dep" isLatest d r parsed
                Hin E) as [A B].
    split; [now left|intros L; left; auto].
  - destruct (batchDependencies_has pkg (devDependencies pkg) "dev" isLatest d r parsed
                Hin E) as [A B].
    split; [right; now left|intros L; right; left; auto].
Qed.

Lemma store_batch_puts pkg isLatest op :
  In op (store_batch pkg isLatest) -> is_put op.
Proof.
  intros Hin. apply store_batch_in in Hin
    as [(t & d & r & parsed & _ & _ & [->|[_ ->]])|[->|[_ [->| ->]]]]; exact I.
Qed.

(** The family of the key of each operation. *)
Lemma store_batch_families pkg isLatest op :
  In op (store_batch pkg isLatest) ->
  starts_with "!index!" (op_key op) = true \/
  starts_with "!pkg!" (op_key op) = true \/
  (isLatest = true /\ latest_family (op_key op) = true).
Proof.
  intros Hin. apply store_batch_in in Hin
    as [(t & d & r & parsed & _ & _ & [->|[L ->]])|[->|[L [->| ->]]]];
    cbn [op_key].
  - left. apply index_key_family.
  - right. right. split; [assumption|]. unfold latest_family.
    rewrite index_latest_key_family. now rewrite !orb_true_r.
  - right. left. apply pkg_key_family.
  - right. right. split; [assumption|]. unfold latest_family.
    now rewrite pkg_latest_key_family.
  - right. right. split; [assumption|]. unfold latest_family.
    rewrite latest_version_key_family. now rewrite orb_true_r.
Qed.

(** A store that is not the latest leaves the three latest families and the
    cache as they are. *)
Lemma store_not_latest_frame st pkg :
  isLatest_of pkg (_getLatestVersion st (name pkg)) = false ->
  lru (store pkg st) = lru st /\
  forall k, latest_family k = true -> db (store pkg st) !! k = db st !! k.
Proof.
  intros E. unfold store. rewrite E. cbn [db lru]. split; [reflexivity|].
  intros k Hk. apply apply_batch_notin. intros op Hin Hkey. subst k.
  apply store_batch_families in Hin as [F|[F|[F _]]]; [| |discriminate].
  - apply latest_family_index in F. congruence.
  - apply latest_family_pkg in F. congruence.
Qed.

Lemma isLatest_of_false pkg latest :
  isLatest_of pkg latest = false <->
  exists l, latest = Some l /\ truthy l = true /\ semverGt (version pkg) l = false.
Proof.
  unfold isLatest_of. split.
  - destruct latest as [l|]; [|discriminate].
    destruct (truthy l) eqn:T; [|discriminate]. eauto.
  - intros (l & -> & -> & ->). reflexivity.
Qed.

(** C10. A manifest whose version equals the current latest is stored as
    not latest: the cache and every key of the three latest families stay
    as they are, the manifest is written under its per-version key, and the
    only keys whose binding can change are that key and per-version index
    keys of this manifest. *)
Theorem store_equal_version_not_latest (st : State) (pkg : Package) :
  _getLatestVersion st (name pkg) = Some (version pkg) ->
  truthy (version pkg) = true ->
  cmp (version pkg) (version pkg) <> 1%Z ->
  lru (store pkg st) = lru st /\
  (forall k, latest_family k = true -> db (store pkg st) !! k = db st !! k) /\
  db (store pkg st) !! pkg_key (escape (name pkg)) (version pkg) = Some (VPkg pkg) /\
  (forall k, db (store pkg st) !! k <> db st !! k ->
     k = pkg_key (escape (name pkg)) (version pkg) \/
     exists deptype dependency,
       k = index_key deptype (escape dependency) (escape (name pkg)) (version pkg)).
Proof.
  intros Hlatest Htruthy Hcmp.
  assert (E : isLatest_of pkg (_getLatestVersion st (name pkg)) = false).
  { apply isLatest_of_false. exists (version pkg). repeat split; try assumption.
    unfold semverGt. now apply Z.eqb_neq. }
  destruct (store_not_latest_frame st pkg E) as [Hlru Hframe].
  split; [assumption|]. split; [assumption|].
  unfold store. rewrite E. cbn [db]. split.
  - apply apply_batch_unique; [apply store_batch_pkg|].
    intros op Hin Hkey. apply store_batch_in in Hin
      as [(t & d & r & parsed & _ & _ & [->|[L _]])|[->|[L _]]];
      try discriminate L; [|reflexivity].
    cbn [op_key] in Hkey. exfalso.
    pose proof (index_key_family t (escape d) (escape (name pkg)) (version pkg)) as F.
    rewrite Hkey in F.
    now rewrite (family_apart "!index!" "!pkg!" _ eq_refl eq_refl
                   (pkg_key_family _ _)) in F.
  - intros k Hk. apply apply_batch_changed in Hk as (op & Hin & <-).
    apply store_batch_in in Hin
      as [(t & d & r & parsed & _ & _ & [->|[L _]])|[->|[L _]]];
      try discriminate L; cbn [op_key]; eauto.
Qed.

(** The operations of the batch on an index key come from a dependency of
    that kind and name whose range text parses. *)
Lemma store_batch_index_inv pkg isLatest op t d :
  t = "dep" \/ t = "dev" ->
  In op (store_batch pkg isLatest) ->
  op_key op = index_key t (escape d) (escape (name pkg)) (version pkg) ->
  exists r parsed,
    ((t = "dep" /\ In (d, r) (default [] (dependencies pkg))) \/
     (t = "dev" /\ In (d, r) (default [] (devDependencies pkg)))) /\
    semver_Range r = Some parsed /\
    op = Put (index_key t (escape d) (escape (name pkg)) (version pkg))
             (VSets (encode (set parsed))).
Proof.
  intros Ht Hin Hkey. apply store_batch_in in Hin
    as [(t' & d' & r & parsed & Hd & E & [->|[L ->]])|[->|[L [->| ->]]]];
    cbn [op_key] in Hkey; try (clash Hkey).
  assert (Ht' : t' = "dep" \/ t' = "dev") by (destruct Hd as [[-> _]|[-> _]]; auto).
  apply index_key_inj in Hkey as [-> Hd']; try assumption.
  apply escape_inj in Hd' as ->. exists r, parsed. auto.
Qed.

Lemma store_batch_index_latest_inv pkg isLatest op t d :
  t = "dep" \/ t = "dev" ->
  In op (store_batch pkg isLatest) ->
  op_key op = index_latest_key t (escape d) (escape (name pkg)) ->
  exists r parsed,
    ((t = "dep" /\ In (d, r) (default [] (dependencies pkg))) \/
     (t = "dev" /\ In (d, r) (default [] (devDependencies pkg)))) /\
    semver_Range r = Some parsed /\
    op = Put (index_latest_key t (escape d) (escape (name pkg)))
             (VLatest (version pkg) (encode (set parsed))).
Proof.
  intros Ht Hin Hkey. apply store_batch_in in Hin
    as [(t' & d' & r & parsed & Hd & E & [->|[L ->]])|[->|[L [->| ->]]]];
    cbn [op_key] in Hkey; try (clash Hkey).
  assert (Ht' : t' = "dep" \/ t' = "dev") by (destruct Hd as [[-> _]|[-> _]]; auto).
  apply index_latest_key_inj in Hkey as [-> Hd']; try assumption.
  apply escape_inj in Hd' as ->. exists r, parsed. auto.
Qed.

Lemma store_batch_pkg_inv pkg isLatest op :
  In op (store_batch pkg isLatest) ->
  op_key op = pkg_key (escape (name pkg)) (version pkg) ->
  op = Put (pkg_key (escape (name pkg)) (version pkg)) (VPkg pkg).
Proof.
  intros Hin Hkey. apply store_batch_in in Hin
    as [(t' & d' & r & parsed & Hd & E & [->|[L ->]])|[->|[L [->| ->]]]];
    cbn [op_key] in Hkey; try (clash Hkey). reflexivity.
Qed.

Lemma store_batch_pkg_latest_inv pkg isLatest op :
  In op (store_batch pkg isLatest) ->
  op_key op = pkg_latest_key (escape (name pkg)) ->
  op = Put (pkg_latest_key (escape (name pkg))) (VPkg pkg).
Proof.
  intros Hin Hkey. apply store_batch_in in Hin
    as [(t' & d' & r & parsed & Hd & E & [->|[L ->]])|[->|[L [->| ->]]]];
    cbn [op_key] in Hkey; try (clash Hkey). reflexivity.
Qed.

Lemma store_batch_latest_version_inv pkg isLatest op n :
  In op (store_batch pkg isLatest) ->
  op_key op = latest_version_key n ->
  isLatest = true /\ n = escape (name pkg) /\
  op = Put (latest_version_key (escape (name pkg))) (VVersion (version pkg)).
Proof.
  intros Hin Hkey. apply store_batch_in in Hin
    as [(t' & d' & r & parsed & Hd & E & [->|[L ->]])|[->|[L [->| ->]]]];
    cbn [op_key] in Hkey; try (clash Hkey).
  unfold latest_version_key in Hkey. apply append_inv_head in Hkey as <-. auto.
Qed.

Lemma in_kind_unique pkg t d r r' :
  NoDup (map fst (default [] (dependencies pkg))) ->
  NoDup (map fst (default [] (devDependencies pkg))) ->
  (t = "dep" /\ In (d, r) (default [] (dependencies pkg))) \/
  (t = "dev" /\ In (d, r) (default [] (devDependencies pkg))) ->
  (t = "dep" /\ In (d, r') (default [] (dependencies pkg))) \/
  (t = "dev" /\ In (d, r') (default [] (devDependencies pkg))) ->
  r = r'.
Proof.
  intros ND1 ND2 [[-> H1]|[-> H1]] [[E H2]|[E H2]]; try discriminate E.
  - exact (NoDup_fst_unique _ _ _ _ ND1 H1 H2).
  - exact (NoDup_fst_unique _ _ _ _ ND2 H1 H2).
Qed.

(** C7. A dependency whose range text [semver.Range] rejects is left out
    of the batch and nothing else changes: the manifest is written under its
    per-version key (and the latest manifest and version when it is the
    latest), no operation of the batch writes the per-version or the latest
    index key of that dependency, and every dependency whose range text
    parses is indexed. *)
Theorem store_skips_unparseable (st : State) (pkg : Package)
    (deptype dependency range_text : string) :
  NoDup (map fst (default [] (dependencies pkg))) ->
  NoDup (map fst (default [] (devDependencies pkg))) ->
  (deptype = "dep" /\ In (dependency, range_text) (default [] (dependencies pkg))) \/
  (deptype = "dev" /\ In (dependency, range_text) (default [] (devDependencies pkg))) ->
  semver_Range range_text = None ->
  let isLatest := isLatest_of pkg (_getLatestVersion st (name pkg)) in
  let n := escape (name pkg) in
  let v := version pkg in
  db (store pkg st) !! pkg_key n v = Some (VPkg pkg) /\
  (isLatest = true ->
   db (store pkg st) !! pkg_latest_key n = Some (VPkg pkg) /\
   db (store pkg st) !! latest_version_key n = Some (VVersion v)) /\
  (forall op, In op (store_batch pkg isLatest) ->
     op_key op <> index_key deptype (escape dependency) n v /\
     op_key op <> index_latest_key deptype (escape dependency) n) /\
  db (store pkg st) !! index_key deptype (escape dependency) n v =
    db st !! index_key deptype (escape dependency) n v /\
  db (store pkg st) !! index_latest_key deptype (escape dependency) n =
    db st !! index_latest_key deptype (escape dependency) n /\
  (forall t d r parsed,
     (t = "dep" /\ In (d, r) (default [] (dependencies pkg))) \/
     (t = "dev" /\ In (d, r) (default [] (devDependencies pkg))) ->
     semver_Range r = Some parsed ->
     db (store pkg st) !! index_key t (escape d) n v =
       Some (VSets (encode (set parsed))) /\
     (isLatest = true ->
      db (store pkg st) !! index_latest_key t (escape d) n =
        Some (VLatest v (encode (set parsed))))).
Proof.
  intros ND1 ND2 Hdep Hbad isLatest n v. subst n v.
  assert (Ht : deptype = "dep" \/ deptype = "dev")
    by (destruct Hdep as [[-> _]|[-> _]]; auto).
  assert (Hno : forall op, In op (store_batch pkg isLatest) ->
            op_key op <> index_key deptype (escape dependency) (escape (name pkg))
                         (version pkg) /\
            op_key op <> index_latest_key deptype (escape dependency)
                         (escape (name pkg))).
  { intros op Hin. split; intros Hkey.
    - destruct (store_batch_index_inv pkg isLatest op deptype dependency Ht Hin Hkey)
        as (r & parsed & Hd & E & _).
      rewrite (in_kind_unique pkg deptype dependency range_text r ND1 ND2 Hdep Hd)
        in Hbad. congruence.
    - destruct (store_batch_index_latest_inv pkg isLatest op deptype dependency
                  Ht Hin Hkey) as (r & parsed & Hd & E & _).
      rewrite (in_kind_unique pkg deptype dependency range_text r ND1 ND2 Hdep Hd)
        in Hbad. congruence. }
  unfold store. fold isLatest. cbn [db].
  split; [|split; [|split; [exact Hno|split; [|split]]]].
  - apply apply_batch_unique; [apply store_batch_pkg|].
    intros op Hin Hkey. now apply store_batch_pkg_inv with (isLatest := isLatest).
  - intros L. rewrite L. destruct (store_batch_latest pkg) as [A B]. split.
    + apply apply_batch_unique; [assumption|].
      intros op Hin Hkey. now apply store_batch_pkg_latest_inv with (isLatest := true).
    + apply apply_batch_unique; [assumption|].
      intros op Hin Hkey.
      now apply (store_batch_latest_version_inv pkg true op _ Hin) in Hkey
        as (_ & _ & ->).
  - apply apply_batch_notin. intros op Hin. now apply Hno.
  - apply apply_batch_notin. intros op Hin. now apply Hno.
  - intros t d r parsed Hd E.
    assert (Ht' : t = "dep" \/ t = "dev") by (destruct Hd as [[-> _]|[-> _]]; auto).
    destruct (store_batch_index pkg isLatest t d r parsed Hd E) as [A B]. split.
    + apply apply_batch_unique; [assumption|].
      intros op Hin Hkey.
      destruct (store_batch_index_inv pkg isLatest op t d Ht' Hin Hkey)
        as (r' & parsed' & Hd' & E' & ->).
      rewrite <- (in_kind_unique pkg t d r r' ND1 ND2 Hd Hd') in E'.
      congruence.
    + intros L. apply apply_batch_unique; [auto|].
      intros op Hin Hkey.
      destruct (store_batch_index_latest_inv pkg isLatest op t d Ht' Hin Hkey)
        as (r' & parsed' & Hd' & E' & ->).
      rewrite <- (in_kind_unique pkg t d r r' ND1 ND2 Hd Hd') in E'.
      congruence.
Qed.

End StoreFacts.

(** * The reader *)

Lemma createReadStream_in m gt lt limit k v :
  In (k, v) (createReadStream m gt lt limit) ->
  m !! k = Some v /\ js_ltb gt k = true /\ js_ltb k lt = true.
Proof.
  unfold createReadStream.
  set (entries := merge_sort key_le (List.filter (in_scan gt lt) (map_to_list m))).
  intros Hin.
  assert (Hentries : In (k, v) entries).
  { destruct limit as [[|n]|]; try assumption.
    rewrite <- (firstn_skipn (S n) entries). apply in_or_app. now left. }
  unfold entries in Hentries.
  apply (Permutation_in _ (merge_sort_Permutation key_le _)) in Hentries.
  apply filter_In in Hentries as [Hm Hscan].
  apply list_elem_of_In, elem_of_map_to_list in Hm.
  unfold in_scan in Hscan. cbn [fst] in Hscan.
  apply andb_true_iff in Hscan as [? ?]. auto.
Qed.

Lemma keyprefix_family o :
  exists kind,
    keyprefix_of o =
    (if opt_all o then "!index!" else "!index-latest!") +:+ kind.
Proof. unfold keyprefix_of. eauto. Qed.

Lemma query_records_in o name m k v :
  In (k, v) (query_records o name m) ->
  m !! k = Some v /\
  starts_with (if opt_all o then "!index!" else "!index-latest!") k = true.
Proof.
  unfold query_records. intros Hin.
  apply createReadStream_in in Hin as (Hm & Hgt & Hlt). split; [assumption|].
  pose proof (scan_prefix (keyprefix_of o +:+ name +:+ "!") (opt_gt o) k) as P.
  rewrite !append_assoc in P. specialize (P Hgt Hlt).
  unfold keyprefix_of in P. rewrite append_assoc in P.
  now apply starts_with_append_l in P.
Qed.

Section QueryFacts.
Context `{Modules}.

(** The transform returns the store as it was, or without the key of the
    record; the second only on a stale hit whose latest version number is
    the version of the manifest it fetched. *)
Lemma filter_effect o name bounds data m :
  (filter o name bounds data m).2 = m \/
  ((filter o name bounds data m).2 = delete data.1 m /\
   (filter o name bounds data m).1 = Skip /\
   exists pkg,
     stale_hit o name bounds data m pkg /\
     m !! latest_version_key (after_last "!" data.1) = Some (VVersion (version pkg))).
Proof.
  unfold filter, stale_hit, passes_filter.
  destruct bounds as [[lquery uquery]|].
  - destruct (sets_of o data.2) as [sets|] eqn:Es; [|now left].
    destruct (match_ sets lquery uquery) eqn:Em; [|now left].
    destruct (opt_all o) eqn:Ea.
    + destruct (m !! ("!pkg!" +:+ after_last "!" data.1)) as [[pkg| | |]|]; now left.
    + destruct (m !! ("!pkg-latest!" +:+ after_last "!" data.1))
        as [[pkg| | |]|] eqn:Ep; try now left.
      destruct (still_declares o name pkg) eqn:Ed; [now left|].
      destruct (m !! latest_version_key (after_last "!" data.1))
        as [[|v| |]|] eqn:Ev; try now left.
      destruct (String.eqb v (version pkg)) eqn:Eq; [|now left].
      apply String.eqb_eq in Eq as ->. right. repeat split.
      exists pkg. repeat split; eauto.
  - destruct (opt_all o) eqn:Ea.
    + destruct (m !! ("!pkg!" +:+ after_last "!" data.1)) as [[pkg| | |]|]; now left.
    + destruct (m !! ("!pkg-latest!" +:+ after_last "!" data.1))
        as [[pkg| | |]|] eqn:Ep; try now left.
      destruct (still_declares o name pkg) eqn:Ed; [now left|].
      destruct (m !! latest_version_key (after_last "!" data.1))
        as [[|v| |]|] eqn:Ev; try now left.
      destruct (String.eqb v (version pkg)) eqn:Eq; [|now left].
      apply String.eqb_eq in Eq as ->. right. repeat split.
      exists pkg. repeat split; eauto.
Qed.

Lemma filter_passes o bounds data :
  passes_filter o bounds data ->
  match bounds with
  | None => Some true
  | Some (lquery, uquery) =>
      match sets_of o data.2 with
      | Some sets => Some (match_ sets lquery uquery)
      | None => None
      end
  end = Some true.
Proof.
  unfold passes_filter. destruct bounds as [[lquery uquery]|]; [|reflexivity].
  intros (sets & -> & ->). reflexivity.
Qed.

(** On a stale hit the transform reads the latest version number again and
    deletes the key of the record exactly when that number is the version of
    the manifest. *)
Lemma filter_stale o name bounds data m pkg v :
  stale_hit o name bounds data m pkg ->
  m !! latest_version_key (after_last "!" data.1) = Some (VVersion v) ->
  (v = version pkg -> filter o name bounds data m = (Skip, delete data.1 m)) /\
  (v <> version pkg -> filter o name bounds data m = (Skip, m)).
Proof.
  intros (Ea & Hp & Ep & Ed) Ev. unfold filter.
  rewrite (filter_passes o bounds data Hp), Ea, Ep, Ed, Ev.
  split; intros E.
  - apply String.eqb_eq in E. now rewrite E.
  - apply String.eqb_neq in E. now rewrite E.
Qed.


Lemma run_filter_effect o name bounds records emitted m k :
  (run_filter o name bounds records emitted m).2 !! k = m !! k \/
  ((run_filter o name bounds records emitted m).2 !! k = None /\
   opt_all o = false /\ exists v, In (k, v) records).
Proof.
  revert emitted m. induction records as [|data records IH]; intros emitted m;
    cbn [run_filter]; [now left|].
  pose proof (filter_effect o name bounds data m) as Hf.
  destruct (filter o name bounds data m) as [step m'] eqn:Ef. cbn [fst snd] in Hf.
  assert (Hm' : m' !! k = m !! k \/
                (m' !! k = None /\ opt_all o = false /\ k = data.1)).
  { destruct Hf as [->|(-> & _ & pkg & (Ea & _) & _)]; [now left|].
    destruct (decide (data.1 = k)) as [<-|Hne].
    - right. rewrite lookup_delete_eq. auto.
    - left. now apply lookup_delete_ne. }
  assert (Hrest : forall em,
            (run_filter o name bounds records em m').2 !! k = m !! k \/
            ((run_filter o name bounds records em m').2 !! k = None /\
             opt_all o = false /\ exists v, In (k, v) (data :: records))).
  { intros em. destruct (IH em m') as [E|(E & Ea & v & Hin)].
    - rewrite E. destruct Hm' as [->|(-> & Ea & ->)]; [now left|].
      right. repeat split; try assumption. exists data.2. left.
      now destruct data.
    - right. repeat split; try assumption. exists v. now right. }
  destruct step as [|pkg|err]; [apply Hrest|apply Hrest|].
  cbn [snd]. destruct Hm' as [->|(-> & Ea & ->)]; [now left|].
  right. repeat split; try assumption. exists data.2. left. now destruct data.
Qed.

(** [query] leaves the cache alone, and every key of the store either keeps
    its binding or is a key of the latest index that a latest scan
    deleted. *)
Lemma query_effect name range_text o st k :
  lru (query name range_text o st).2 = lru st /\
  (db (query name range_text o st).2 !! k = db st !! k \/
   (db (query name range_text o st).2 !! k = None /\
    opt_all o = false /\ starts_with "!index-latest!" k = true)).
Proof.
  unfold query.
  destruct (semver_Range range_text) as [parsed|]; [|split; [reflexivity|now left]].
  destruct (negb (length (set parsed) =? 1)%nat); [split; [reflexivity|now left]|].
  destruct (query_bounds parsed) as [bounds|e]; [|split; [reflexivity|now left]].
  pose proof (run_filter_effect o (escape name) bounds
                (query_records o (escape name) (db st)) [] (db st) k) as Hr.
  destruct (run_filter o (escape name) bounds
              (query_records o (escape name) (db st)) [] (db st)) as [out m'].
  cbn [fst snd db lru] in *. split; [reflexivity|].
  destruct Hr as [E|(E & Ea & v & Hin)]; [now left|].
  right. repeat split; try assumption.
  apply query_records_in in Hin as [_ Hp]. now rewrite Ea in Hp.
Qed.

End QueryFacts.

(** * Sequences of calls *)

Lemma not_latest_index_key k :
  starts_with "!pkg!" k = true \/ starts_with "!pkg-latest!" k = true \/
  starts_with "!latest-version!" k = true \/ starts_with "!index!" k = true ->
  starts_with "!index-latest!" k = false.
Proof.
  intros [P|[P|[P|P]]].
  - exact (family_apart "!index-latest!" "!pkg!" k eq_refl eq_refl P).
  - exact (family_apart "!index-latest!" "!pkg-latest!" k eq_refl eq_refl P).
  - exact (family_apart "!index-latest!" "!latest-version!" k eq_refl eq_refl P).
  - exact (family_apart "!index-latest!" "!index!" k eq_refl eq_refl P).
Qed.

Section TraceFacts.
Context `{Modules}.

(** C6. Lazy cleanup.  On a stale hit of a latest scan the transform reads
    the latest version number of the dependent again: when it is the version
    of the manifest it fetched, it deletes the key of the record, and when it
    differs it deletes nothing.  The transform never deletes another key, and
    a whole [query] changes no binding of the store except by deleting keys
    of the latest index; manifests, latest manifests, latest version numbers
    and the per-version index keep their bindings. *)
Theorem lazy_cleanup_deletes_only_stale_entry (o : Opts) (name : string)
    (bounds : option (string * string)) (data : string * Value)
    (m : gmap string Value) :
  (forall pkg v,
     stale_hit o name bounds data m pkg ->
     m !! latest_version_key (after_last "!" data.1) = Some (VVersion v) ->
     (v = version pkg -> filter o name bounds data m = (Skip, delete data.1 m)) /\
     (v <> version pkg -> filter o name bounds data m = (Skip, m))) /\
  ((filter o name bounds data m).2 = m \/
   ((filter o name bounds data m).2 = delete data.1 m /\
    exists pkg,
      stale_hit o name bounds data m pkg /\
      m !! latest_version_key (after_last "!" data.1) =
        Some (VVersion (version pkg)))) /\
  (forall k, k <> data.1 -> (filter o name bounds data m).2 !! k = m !! k) /\
  (forall qname range_text st k,
     db (query qname range_text o st).2 !! k = db st !! k \/
     (db (query qname range_text o st).2 !! k = None /\
      opt_all o = false /\ starts_with "!index-latest!" k = true)) /\
  (forall qname range_text st k,
     starts_with "!pkg!" k = true \/ starts_with "!pkg-latest!" k = true \/
     starts_with "!latest-version!" k = true \/ starts_with "!index!" k = true ->
     db (query qname range_text o st).2 !! k = db st !! k).
Proof.
  split; [intros pkg v; apply filter_stale|].
  split.
  { destruct (filter_effect o name bounds data m) as [E|(E & _ & Hp)]; auto. }
  split.
  { intros k Hk.
    destruct (filter_effect o name bounds data m) as [->|(-> & _)]; [reflexivity|].
    now apply lookup_delete_ne. }
  split.
  { intros qname range_text st k. apply query_effect. }
  intros qname range_text st k Hfam.
  destruct (query_effect qname range_text o st k) as [_ [E|(_ & _ & F)]];
    [assumption|exfalso].
  rewrite (not_latest_index_key k Hfam) in F. discriminate.
Qed.




(** ** The latest version number only grows *)



Lemma latest_version_key_latest s : latest_family (latest_version_key s) = true.
Proof.
  unfold latest_family. rewrite latest_version_key_family.
  now rewrite orb_true_r.
Qed.

(** What [store] does to a latest version number. *)
Lemma store_latest_version st pkg s :
  (db (store pkg st) !! latest_version_key s = db st !! latest_version_key s) \/
  (isLatest_of pkg (_getLatestVersion st (name pkg)) = true /\
   s = escape (name pkg) /\
   db (store pkg st) !! latest_version_key s = Some (VVersion (version pkg))).
Proof.
  unfold store. cbn [db].
  set (isLatest := isLatest_of pkg (_getLatestVersion st (name pkg))).
  destruct (decide (Exists (fun op => op_key op = latest_version_key s)
                      (store_batch pkg isLatest))) as [E|N].
  2:{ left. apply apply_batch_notin. intros op Hin Hkey. apply N.
      apply Exists_exists. exists op. split; [now apply list_elem_of_In|assumption]. }
  right. apply Exists_exists in E as (op & Hin & Hkey).
  apply list_elem_of_In in Hin.
  apply (store_batch_latest_version_inv pkg isLatest op s Hin) in Hkey
    as (L & -> & _).
  repeat split; try assumption.
  rewrite L. apply apply_batch_unique; [apply store_batch_latest|].
  intros op' Hin' Hkey'.
  now apply (store_batch_latest_version_inv pkg true op' _ Hin') in Hkey'
    as (_ & _ & ->).
Qed.

Lemma query_latest_version name range_text o st s :
  db (query name range_text o st).2 !! latest_version_key s =
  db st !! latest_version_key s.
Proof.
  destruct (query_effect name range_text o st (latest_version_key s))
    as [_ [E|(_ & _ & F)]]; [assumption|].
  rewrite (family_apart "!index-latest!" "!latest-version!" _ eq_refl eq_refl
             (latest_version_key_family s)) in F. discriminate.
Qed.




End TraceFacts.

(** * Failures of [query], and runs on the instance *)

Section QueryFailures.
Context `{Modules}.

(** C2, as the code has it.  A query whose range parses to a number of
    disjunction groups other than one throws; a query that is not a wildcard
    throws when its group has more than two comparators, or two comparators
    of which the first is not [>=] or [>] or the second is not [<] or [<=].
    The exception leaves [query] itself: no stream is returned, the callback
    is not called and the store is as it was. *)
Theorem query_throws_on_unsupported_range (name range_text : string) (o : Opts)
    (st : State) (parsed : Range) :
  semver_Range range_text = Some parsed ->
  (length (set parsed) <> 1%nat ->
   query name range_text o st =
     (Thrown (Error "OR-range queries not supported"), st)) /\
  (forall comparators,
     set parsed = [comparators] -> range parsed <> EmptyString ->
     ((2 < length comparators)%nat ->
      query name range_text o st =
        (Thrown (Error "More than two comparators not supported"), st)) /\
     (forall lower upper,
        comparators = [lower; upper] ->
        (operator lower <> OpGe /\ operator lower <> OpGt ->
         query name range_text o st =
           (Thrown (Error ("Unexpected lower operator: " +:+
                           operator_text (operator lower))), st)) /\
        (operator lower = OpGe \/ operator lower = OpGt ->
         operator upper <> OpLt /\ operator upper <> OpLe ->
         query name range_text o st =
           (Thrown (Error ("Unexpected upper operator: " +:+
                           operator_text (operator upper))), st)))).
Proof.
  intros Hparse. unfold query. rewrite Hparse. split.
  - intros Hlen. apply Nat.eqb_neq in Hlen. now rewrite Hlen.
  - intros comparators Hset Hwild. rewrite Hset. cbn [length Nat.eqb negb].
    unfold query_bounds. apply String.eqb_neq in Hwild. rewrite Hwild, Hset.
    change (default [] ([comparators] !! 0%nat)) with comparators. split.
    + intros Hlen. unfold normalize. apply Nat.ltb_lt in Hlen. rewrite Hlen.
      reflexivity.
    + intros lower upper -> . unfold normalize. cbn [length Nat.ltb Nat.leb].
      unfold normalizeLower, normalizeUpper. split.
      * intros [N1 N2]. destruct (operator lower); try congruence; reflexivity.
      * intros [-> | ->] [N1 N2]; destruct (operator upper); try congruence;
          reflexivity.
Qed.

End QueryFailures.

(** C2 as stated fails: on ["1.0.0 || 2.0.0"], on three comparators and on
    an upper comparator in first place the failure is an exception thrown by
    [query], not an error of the stream; and the wildcard ["* *"], two
    comparators that [normalize] would reject, does not fail at all. *)
Lemma query_failure_is_thrown :
  (@query example_modules "b" "1.0.0 || 2.0.0" no_opts empty_state).1 =
    Thrown (Error "OR-range queries not supported") /\
  ~ (exists emitted err,
       (@query example_modules "b" "1.0.0 || 2.0.0" no_opts empty_state).1 =
         Streamed emitted (Some err)) /\
  (@query example_modules "b" ">=1.0.0 <2.0.0 <3.0.0" no_opts empty_state).1 =
    Thrown (Error "More than two comparators not supported") /\
  (@query example_modules "b" "<2.0.0 >=1.0.0" no_opts empty_state).1 =
    Thrown (Error "Unexpected lower operator: <") /\
  (@query example_modules "b" "* *" no_opts empty_state).1 = Streamed [] None.
Proof.
  split; [vm_compute; reflexivity|].
  split; [intros (emitted & err & E); vm_compute in E; discriminate|].
  repeat split; vm_compute; reflexivity.
Qed.

Lemma query_throws_on_unsupported_range_witness :
  @query example_modules "b" "1.0.0 || 2.0.0" no_opts empty_state =
    (Thrown (Error "OR-range queries not supported"), empty_state).
Proof.
  apply (proj1 (@query_throws_on_unsupported_range example_modules
                  "b" "1.0.0 || 2.0.0" no_opts empty_state
                  {| range := "1.0.0||2.0.0";
                     set := [[cmp_ OpEq 1 0 0]; [cmp_ OpEq 2 0 0]] |}
                  eq_refl)).
  simpl. lia.
Defined.

(** ** Keys on concrete names *)

Example escape_examples :
  escape "@scope/pkg.js" = "@scope/pkg.js" /\
  escape "a!b~c" = "a%21b%7Ec" /\
  after_last "!" "!index!dep!request!zulip@0.1.0" = "zulip@0.1.0" /\
  after_last "!" "!index-latest!dep!request!zulip" = "zulip" /\
  index_key "dep" "request" "zulip" "0.1.0" = "!index!dep!request!zulip@0.1.0" /\
  index_latest_key "dep" "request" "zulip" = "!index-latest!dep!request!zulip".
Proof. repeat split; vm_compute; reflexivity. Qed.

(** ** The scenarios of the specification *)

(** S1: after [a@1.0.0] with [b: ^1.2.0], the query [b 1.5.0] returns it. *)
Example scenario_S1 :
  (@query example_modules "b" "1.5.0" no_opts after_a1).1 =
    Streamed [a_1_0_0] None.
Proof. vm_compute. reflexivity. Qed.

(** S2: after [a@2.0.0] without dependencies, the same query returns
    nothing and the latest index entry of [a] under [b] is gone. *)
Example scenario_S2 :
  (@query example_modules "b" "1.5.0" no_opts after_a2).1 = Streamed [] None /\
  db after_a2 !! "!index-latest!dep!b!a" =
    Some (VLatest "1.0.0" [(["01!02!00"], ["02!00!00"])]) /\
  db (@query example_modules "b" "1.5.0" no_opts after_a2).2
    !! "!index-latest!dep!b!a" = None.
Proof. repeat split; vm_compute; reflexivity. Qed.

(** S3: with [all] the query returns [a@1.0.0]. *)
Example scenario_S3 :
  (@query example_modules "b" "1.5.0" all_opts after_a2).1 =
    Streamed [a_1_0_0] None.
Proof. vm_compute. reflexivity. Qed.

(** S4: [y: ~2.3.0] is not returned for 2.4.0 and is for 2.3.5. *)
Example scenario_S4 :
  (@query example_modules "y" "2.4.0" no_opts
     (@store example_modules x_1_0_0 empty_state)).1 = Streamed [] None /\
  (@query example_modules "y" "2.3.5" no_opts
     (@store example_modules x_1_0_0 empty_state)).1 = Streamed [x_1_0_0] None.
Proof. split; vm_compute; reflexivity. Qed.

(** S6: a range text that does not parse leaves no index entry. *)
Example scenario_S6 :
  map fst (map_to_list (db (@store example_modules z_1_0_0 empty_state))) =
    ["!index-latest!dep!c!z"; "!index!dep!c!z@1.0.0"; "!latest-version!z";
     "!pkg-latest!z"; "!pkg!z@1.0.0"].
Proof. vm_compute. reflexivity. Qed.

(** ** Runs of the general results on the instance *)

(** C10 on [a@1.0.0] stored a second time. *)
Lemma store_equal_version_not_latest_witness :
  _getLatestVersion after_a1 "a" = Some "1.0.0" /\
  lru (@store example_modules a_1_0_0 after_a1) = lru after_a1 /\
  (forall k, latest_family k = true ->
     db (@store example_modules a_1_0_0 after_a1) !! k = db after_a1 !! k).
Proof.
  split; [vm_compute; reflexivity|].
  pose proof (@store_equal_version_not_latest example_modules after_a1 a_1_0_0)
    as W.
  destruct W as (W1 & W2 & _).
  - vm_compute. reflexivity.
  - reflexivity.
  - vm_compute. discriminate.
  - split; assumption.
Defined.


(** C6 on the stale entry of [a] under [b] once [a@2.0.0] is stored. *)
Lemma lazy_cleanup_deletes_only_stale_entry_witness :
  let data := ("!index-latest!dep!b!a",
               VLatest "1.0.0" [(["01!02!00"], ["02!00!00"])]) in
  let bounds := Some ("01!05!00", "01!05!01") in
  stale_hit no_opts "b" bounds data (db after_a2) a_2_0_0 /\
  filter no_opts "b" bounds data (db after_a2) =
    (Skip, delete "!index-latest!dep!b!a" (db after_a2)).
Proof.
  cbn zeta.
  assert (S : stale_hit no_opts "b" (Some ("01!05!00", "01!05!01"))
                ("!index-latest!dep!b!a",
                 VLatest "1.0.0" [(["01!02!00"], ["02!00!00"])])
                (db after_a2) a_2_0_0).
  { split; [reflexivity|]. split; [|split].
    - eexists. split; [reflexivity|]. vm_compute. reflexivity.
    - vm_compute. reflexivity.
    - vm_compute. reflexivity. }
  split; [exact S|].
  destruct (@lazy_cleanup_deletes_only_stale_entry example_modules no_opts "b"
              (Some ("01!05!00", "01!05!01"))
              ("!index-latest!dep!b!a",
               VLatest "1.0.0" [(["01!02!00"], ["02!00!00"])])
              (db after_a2)) as (W & _).
  destruct (W a_2_0_0 "2.0.0" S) as [W1 _].
  - vm_compute. reflexivity.
  - apply W1. reflexivity.
Defined.

(** C7 on a manifest with one range text that does not parse. *)
Lemma store_skips_unparseable_witness :
  @semver_Range example_modules "not-a-range" = None /\
  db (@store example_modules z_1_0_0 empty_state) !! pkg_key "z" "1.0.0" =
    Some (VPkg z_1_0_0) /\
  db (@store example_modules z_1_0_0 empty_state)
    !! index_key "dep" "b" "z" "1.0.0" = None /\
  db (@store example_modules z_1_0_0 empty_state)
    !! index_key "dep" "c" "z" "1.0.0" =
    Some (VSets [(["01!02!00"], ["02!00!00"])]).
Proof.
  split; [reflexivity|].
  destruct (@store_skips_unparseable example_modules empty_state z_1_0_0
              "dep" "b" "not-a-range") as (W1 & _ & _ & W4 & _ & W6).
  - apply (bool_decide_unpack _). vm_compute. exact I.
  - apply (bool_decide_unpack _). vm_compute. exact I.
  - left. split; [reflexivity|]. simpl. now left.
  - reflexivity.
  - split; [exact W1|]. split.
    + transitivity (db empty_state !! index_key "dep" "b" "z" "1.0.0");
        [exact W4|reflexivity].
    + destruct (W6 "dep" "c" "^1.2.0"
                  {| range := ">=1.2.0 <2.0.0";
                     set := [[cmp_ OpGe 1 2 0; cmp_ OpLt 2 0 0]] |}) as [W _].
      * left. split; [reflexivity|]. simpl. right. now left.
      * reflexivity.
      * exact W.
Defined.


(** * Further properties: the read-side normalization *)

Lemma sv_between_inc v t : sv_le v t -> sv_lt t (inc_patch v) -> t = v.
Proof.
  intros [L | ->] U; [|reflexivity]. exfalso.
  unfold sv_lt, inc_patch in *. cbn [major minor patch] in *. lia.
Qed.

Lemma sv_lt_inc_le t v : sv_lt t (inc_patch v) -> sv_le t v.
Proof.
  intros U. destruct (sv_trichotomy t v) as [L|[E|G]]; [now left|now right|].
  exfalso. unfold sv_lt, inc_patch in *. cbn [major minor patch] in *. lia.
Qed.

Lemma sv_inc_le_lt v t : sv_le (inc_patch v) t -> sv_lt v t.
Proof.
  intros [L | <-]; unfold sv_lt, inc_patch in *; cbn [major minor patch] in *; lia.
Qed.

(** X1. [normalize] is exact.  When it accepts the comparators of a query,
    a version triple satisfies all of them exactly when it lies in the
    interval returned: at or above the first version, strictly below the
    second, a missing side being unbounded. *)
Theorem normalize_exact (Q : list Comparator) (norm : list SemVer) (t : SemVer) :
  normalize Q = Ok norm ->
  (Forall (satisfies t) Q <-> in_interval norm t).
Proof.
  intros E. split; [apply normalize_sound; assumption|].
  unfold in_interval. revert E. unfold normalize.
  destruct Q as [|l [|u [|w Q]]]; cbn [length Nat.ltb Nat.leb]; try discriminate.
  - intros E [Hlo Hhi].
    apply List.Forall_cons; [|apply List.Forall_nil]. unfold satisfies.
    destruct (operator l); injection E as <-; try exact I.
    + apply sv_between_inc; [apply Hlo|apply Hhi]; reflexivity.
    + apply Hhi. reflexivity.
    + apply sv_lt_inc_le, Hhi. reflexivity.
    + apply sv_inc_le_lt, Hlo. reflexivity.
    + apply Hlo. reflexivity.
  - unfold normalizeLower, normalizeUpper. intros E [Hlo Hhi].
    apply List.Forall_cons; [|apply List.Forall_cons; [|apply List.Forall_nil]];
      unfold satisfies;
      destruct (operator l); try discriminate;
      destruct (operator u); try discriminate;
      injection E as <-;
      first [ apply sv_inc_le_lt, Hlo; reflexivity
            | apply sv_lt_inc_le, Hhi; reflexivity
            | apply Hlo; reflexivity
            | apply Hhi; reflexivity ].
Qed.

Lemma normalize_exact_witness :
  normalize [cmp_ OpGt 1 2 3; cmp_ OpLe 2 0 0] = Ok [sv 1 2 4; sv 2 0 1] /\
  (Forall (satisfies (sv 1 9 0)) [cmp_ OpGt 1 2 3; cmp_ OpLe 2 0 0] <->
   in_interval [sv 1 2 4; sv 2 0 1] (sv 1 9 0)).
Proof.
  split; [reflexivity|]. apply normalize_exact. reflexivity.
Defined.

Lemma normalize_ok_iff (Q : list Comparator) :
  (exists norm, normalize Q = Ok norm) <-> accepted_shape Q.
Proof.
  unfold accepted_shape, normalize.
  destruct Q as [|l [|u [|w Q]]]; cbn [length Nat.ltb Nat.leb].
  - split; [intros [norm E]; discriminate|].
    intros [[c E]|(lo & hi & E & _)]; discriminate.
  - split; [intros _; left; eauto|intros _].
    destruct (operator l); eauto.
  - unfold normalizeLower, normalizeUpper. split.
    + intros [norm E]. right. exists l, u. split; [reflexivity|].
      destruct (operator l); try discriminate;
        destruct (operator u); try discriminate; auto.
    + intros [[c E]|(lo & hi & E & [Hl|Hl] & [Hu|Hu])]; try discriminate;
        injection E as <- <-; rewrite Hl, Hu; eauto.
  - split; [intros [norm E]; discriminate|].
    intros [[c E]|(lo & hi & E & _)]; discriminate.
Qed.

(** X2. What [normalize] accepts.  It returns an interval exactly for one
    comparator, of any operator, and for two comparators of which the first
    is [>=] or [>] and the second [<] or [<=]; every other array of
    comparators, the empty one included, makes it throw. *)
Theorem normalize_accepts (Q : list Comparator) :
  (exists norm, normalize Q = Ok norm) <-> accepted_shape Q.
Proof. apply normalize_ok_iff. Qed.

Section PipelineOverlap.
Context `{Modules}.
Variable bound : N.
Hypothesis Hhex : pack_is_hex bound.
Hypothesis Hord : pack_order_preserving bound.

(** X3. No false negative without [<=], on what [store] writes and [query]
    computes: when a group of the stored range has no [<=] comparator and
    shares a version triple with the group of the query, [match] on the
    stored value and the bounds of the query answers [true]. *)
Theorem stored_range_is_found (stored asked : Range) (R Q : list Comparator)
    (lquery uquery : string) :
  0 < bound ->
  In R (set stored) ->
  set asked = [Q] ->
  query_bounds asked = Ok (Some (lquery, uquery)) ->
  Forall (comparator_below bound) R ->
  Forall (fun c => operator c <> OpLe) R ->
  Forall (comparator_below bound) Q ->
  overlap R Q ->
  match_ (encode (set stored)) lquery uquery = true.
Proof.
  intros Pos Hin Hset Hb BR NoLe BQ Hov.
  unfold query_bounds in Hb. rewrite Hset in Hb.
  destruct (String.eqb (range asked) EmptyString); [discriminate|].
  change (default [] ([Q] !! 0%nat)) with Q in Hb.
  destruct (normalize Q) as [norm|e] eqn:En; [|discriminate].
  cbn in Hb. injection Hb as <- <-.
  now apply (match_complete_without_le bound Hhex Hord (set stored) R Q norm).
Qed.

End PipelineOverlap.

Lemma stored_range_is_found_witness :
  match_ (@encode example_modules [[cmp_ OpGe 1 2 0; cmp_ OpLt 2 0 0]])
         "01!05!00" "01!05!01" = true.
Proof.
  apply (@stored_range_is_found example_modules pack_integer_bound
           pack_hex_is_hex pack_hex_order_preserving
           {| range := ">=1.2.0 <2.0.0";
              set := [[cmp_ OpGe 1 2 0; cmp_ OpLt 2 0 0]] |}
           {| range := "1.5.0"; set := [[cmp_ OpEq 1 5 0]] |}
           [cmp_ OpGe 1 2 0; cmp_ OpLt 2 0 0] [cmp_ OpEq 1 5 0]).
  - unfold pack_integer_bound. lia.
  - simpl. now left.
  - reflexivity.
  - vm_compute. reflexivity.
  - repeat (apply List.Forall_cons || apply List.Forall_nil); right;
      unfold below, inc_patch, pack_integer_bound; simpl; lia.
  - repeat (apply List.Forall_cons || apply List.Forall_nil); simpl; discriminate.
  - repeat (apply List.Forall_cons || apply List.Forall_nil); right;
      unfold below, inc_patch, pack_integer_bound; simpl; lia.
  - exists (sv 1 5 0). split;
      repeat (apply List.Forall_cons || apply List.Forall_nil);
      unfold satisfies, sv_le, sv_lt; simpl; try lia; auto.
Defined.

(** * Further properties: what [store] leaves for the reader *)

Lemma contains_append c a b :
  contains c (a +:+ b) = (contains c a || contains c b)%bool.
Proof.
  induction a as [|x a IH]; [reflexivity|].
  rewrite append_cons. cbn [contains]. rewrite IH. now rewrite orb_assoc.
Qed.

Lemma upper_hex_digit_not_bang d : d < 16 -> Ascii.eqb (upper_hex_digit d) "!" = false.
Proof.
  intros B. apply Ascii.eqb_neq. intros E. apply (f_equal N_of_ascii) in E.
  rewrite upper_hex_digit_code in E by assumption.
  change (N_of_ascii "!") with 33 in E. destruct (d <? 10); lia.
Qed.

Lemma escape_char_no_bang c : contains "!" (escape_char c) = false.
Proof.
  unfold escape_char. destruct (unescaped c) eqn:U; cbn [contains].
  - rewrite orb_false_r. apply Ascii.eqb_neq. intros ->. discriminate.
  - pose proof (N_ascii_bounded c) as B.
    rewrite !upper_hex_digit_not_bang; [reflexivity| |].
    + apply N.mod_lt. lia.
    + apply N.Div0.div_lt_upper_bound. lia.
Qed.

(** [escape] leaves no ['!'] in a name, so the fields of a key can be told
    apart. *)
Lemma escape_no_bang s : contains "!" (escape s) = false.
Proof.
  induction s as [|c s IH]; [reflexivity|].
  cbn [escape]. now rewrite contains_append, escape_char_no_bang, IH.
Qed.

Lemma after_last_sep c p s :
  contains c s = false -> after_last c (p +:+ String c s) = s.
Proof.
  intros Hs. induction p as [|x p IH].
  - rewrite append_nil_l. cbn [after_last]. now rewrite Hs, Ascii.eqb_refl.
  - rewrite append_cons. cbn [after_last].
    rewrite contains_append. cbn [contains]. rewrite Ascii.eqb_refl.
    now rewrite orb_true_r.
Qed.

Lemma after_last_index_latest_key t d n :
  contains "!" n = false -> after_last "!" (index_latest_key t d n) = n.
Proof.
  intros Hn. unfold index_latest_key.
  replace ("!index-latest!" +:+ t +:+ "!" +:+ d +:+ "!" +:+ n)
    with (("!index-latest!" +:+ t +:+ "!" +:+ d) +:+ String "!" n)
    by (now rewrite !append_assoc).
  now apply after_last_sep.
Qed.


Section StoreReadFacts.
Context `{Modules}.

Lemma store_pkg_lookup st pkg :
  db (store pkg st) !! pkg_key (escape (name pkg)) (version pkg) = Some (VPkg pkg).
Proof.
  unfold store. cbn [db]. apply apply_batch_unique; [apply store_batch_pkg|].
  intros op Hin Hkey. eapply store_batch_pkg_inv; eassumption.
Qed.

Lemma store_latest_lookups st pkg :
  isLatest_of pkg (_getLatestVersion st (name pkg)) = true ->
  db (store pkg st) !! pkg_latest_key (escape (name pkg)) = Some (VPkg pkg) /\
  db (store pkg st) !! latest_version_key (escape (name pkg)) =
    Some (VVersion (version pkg)) /\
  lru (store pkg st) !! name pkg = Some (version pkg).
Proof.
  intros L. unfold store. rewrite L. cbn [db lru].
  destruct (store_batch_latest pkg) as [A B]. repeat split.
  - apply apply_batch_unique; [assumption|]. intros op Hin Hkey.
    eapply store_batch_pkg_latest_inv; eassumption.
  - apply apply_batch_unique; [assumption|]. intros op Hin Hkey.
    now apply (store_batch_latest_version_inv pkg true op _ Hin) in Hkey
      as (_ & _ & ->).
  - apply lookup_insert_eq.
Qed.

Lemma store_index_lookups st pkg t d r parsed :
  keys_distinct pkg ->
  (t = "dep" /\ In (d, r) (default [] (dependencies pkg))) \/
  (t = "dev" /\ In (d, r) (default [] (devDependencies pkg))) ->
  semver_Range r = Some parsed ->
  db (store pkg st) !! index_key t (escape d) (escape (name pkg)) (version pkg) =
    Some (VSets (encode (set parsed))) /\
  (isLatest_of pkg (_getLatestVersion st (name pkg)) = true ->
   db (store pkg st) !! index_latest_key t (escape d) (escape (name pkg)) =
     Some (VLatest (version pkg) (encode (set parsed)))).
Proof.
  intros [ND1 ND2] Hd E. unfold store. cbn [db].
  set (isLatest := isLatest_of pkg (_getLatestVersion st (name pkg))).
  assert (Ht : t = "dep" \/ t = "dev") by (destruct Hd as [[-> _]|[-> _]]; auto).
  destruct (store_batch_index pkg isLatest t d r parsed Hd E) as [A B]. split.
  - apply apply_batch_unique; [assumption|]. intros op Hin Hkey.
    destruct (store_batch_index_inv pkg isLatest op t d Ht Hin Hkey)
      as (r' & parsed' & Hd' & E' & ->).
    rewrite <- (in_kind_unique pkg t d r r' ND1 ND2 Hd Hd') in E'. congruence.
  - intros L. apply apply_batch_unique; [auto|]. intros op Hin Hkey.
    destruct (store_batch_index_latest_inv pkg isLatest op t d Ht Hin Hkey)
      as (r' & parsed' & Hd' & E' & ->).
    rewrite <- (in_kind_unique pkg t d r r' ND1 ND2 Hd Hd') in E'. congruence.
Qed.

(** The transform on a record of the latest index, right after the
    dependent was stored as latest: the manifest read back is the one just
    stored and the latest version number is its version, so the record is
    emitted when the manifest declares the (escaped) name asked for, and
    deleted otherwise. *)
Lemma filter_after_latest_store st pkg o qname bounds t d value :
  isLatest_of pkg (_getLatestVersion st (name pkg)) = true ->
  opt_all o = false ->
  passes_filter o bounds (index_latest_key t d (escape (name pkg)), value) ->
  filter o qname bounds (index_latest_key t d (escape (name pkg)), value)
         (db (store pkg st)) =
  if still_declares o qname pkg
  then (Emit pkg, db (store pkg st))
  else (Skip, delete (index_latest_key t d (escape (name pkg))) (db (store pkg st))).
Proof.
  intros L Ea Hp.
  destruct (store_latest_lookups st pkg L) as (Hpkg & Hver & _).
  unfold filter. rewrite (filter_passes o bounds _ Hp), Ea. cbn [fst snd].
  rewrite (after_last_index_latest_key t d _ (escape_no_bang (name pkg))).
  unfold pkg_latest_key in Hpkg. rewrite Hpkg.
  destruct (still_declares o qname pkg); [reflexivity|].
  rewrite Hver, String.eqb_refl. reflexivity.
Qed.



(** X5. A name that [escape] rewrites is dropped from the latest index by
    the first query that meets it.  The transform looks the escaped name up
    in the manifest; when the manifest declares the dependency under its
    plain name only, the look-up fails, and the entry that [store] has just
    written for the latest manifest is taken for stale and deleted. *)
Theorem escaped_name_entry_deleted (st : State) (pkg : Package) (o : Opts)
    (t dep r : string) (parsed : Range) (bounds : option (string * string)) :
  isLatest_of pkg (_getLatestVersion st (name pkg)) = true ->
  keys_distinct pkg ->
  (t = "dep" /\ In (dep, r) (default [] (dependencies pkg))) \/
  (t = "dev" /\ In (dep, r) (default [] (devDependencies pkg))) ->
  semver_Range r = Some parsed ->
  still_declares o (escape dep) pkg = false ->
  opt_all o = false ->
  let key := index_latest_key t (escape dep) (escape (name pkg)) in
  let value := VLatest (version pkg) (encode (set parsed)) in
  db (store pkg st) !! key = Some value /\
  (passes_filter o bounds (key, value) ->
   filter o (escape dep) bounds (key, value) (db (store pkg st)) =
     (Skip, delete key (db (store pkg st)))).
Proof.
  intros L ND Hd E S Ea key value. subst key value.
  destruct (store_index_lookups st pkg t dep r parsed ND Hd E) as [_ Hl].
  split; [now apply Hl|]. intros Hp.
  rewrite (filter_after_latest_store st pkg o (escape dep) bounds t (escape dep)
             _ L Ea Hp).
  now rewrite S.
Qed.



End StoreReadFacts.

(** * Further properties: the writer on its own *)

Section WriterFacts.
Context `{Modules}.

Lemma store_batch_pkg_latest_inv_any pkg isLatest op n :
  In op (store_batch pkg isLatest) ->
  op_key op = pkg_latest_key n ->
  isLatest = true /\ n = escape (name pkg).
Proof.
  intros Hin Hkey. apply store_batch_in in Hin
    as [(t' & d' & r & parsed & Hd & E & [->|[L ->]])|[->|[L [->| ->]]]];
    cbn [op_key] in Hkey; try (clash Hkey).
  unfold pkg_latest_key in Hkey. apply append_inv_head in Hkey as <-. auto.
Qed.

Lemma getLatestVersion_after_latest st pkg :
  isLatest_of pkg (_getLatestVersion st (name pkg)) = true ->
  _getLatestVersion (store pkg st) (name pkg) = Some (version pkg).
Proof.
  intros L. destruct (store_latest_lookups st pkg L) as (_ & Hv & Hl).
  unfold _getLatestVersion, db_latest_version. rewrite Hl, Hv.
  now destruct (truthy (version pkg)).
Qed.

Lemma getLatestVersion_other st pkg n :
  n <> name pkg \/ isLatest_of pkg (_getLatestVersion st (name pkg)) = false ->
  _getLatestVersion (store pkg st) n = _getLatestVersion st n.
Proof.
  intros Hn.
  assert (Hdb : db (store pkg st) !! latest_version_key (escape n) =
                db st !! latest_version_key (escape n)).
  { destruct (store_latest_version st pkg (escape n)) as [E|(L & En & _)];
      [assumption|].
    apply escape_inj in En. destruct Hn as [Hn|Hn]; congruence. }
  assert (Hlru : lru (store pkg st) !! n = lru st !! n).
  { unfold store. cbn [lru].
    destruct (isLatest_of pkg (_getLatestVersion st (name pkg))) eqn:L;
      [|reflexivity].
    destruct Hn as [Hn|Hn]; [|discriminate].
    apply lookup_insert_ne. congruence. }
  unfold _getLatestVersion, db_latest_version. now rewrite Hlru, Hdb.
Qed.

(** X8. What [store] does to the latest version on record.  After a store
    that is the latest, [_getLatestVersion] answers the stored version for
    that package; after a store that is not, it answers what it did before.
    For every other package name the answer and the latest manifest are
    unchanged. *)
Theorem latest_version_after_store (st : State) (pkg : Package) (n : string) :
  _getLatestVersion (store pkg st) n =
    (if decide (n = name pkg)
     then if isLatest_of pkg (_getLatestVersion st (name pkg))
          then Some (version pkg)
          else _getLatestVersion st n
     else _getLatestVersion st n) /\
  (n <> name pkg ->
   db (store pkg st) !! pkg_latest_key (escape n) = db st !! pkg_latest_key (escape n)).
Proof.
  split.
  - destruct (decide (n = name pkg)) as [->|Hn].
    + destruct (isLatest_of pkg (_getLatestVersion st (name pkg))) eqn:L.
      * now apply getLatestVersion_after_latest.
      * apply getLatestVersion_other. now right.
    + apply getLatestVersion_other. now left.
  - intros Hn. unfold store. cbn [db]. apply apply_batch_notin.
    intros op Hin Hkey.
    apply (store_batch_pkg_latest_inv_any pkg _ op _ Hin) in Hkey as [_ En].
    apply escape_inj in En. contradiction.
Qed.

(** X9. Storing the same manifest twice is storing it once, provided its
    version text is not empty and [semver-compare] does not find a version
    greater than itself: the second [store] is not the latest and rewrites
    the per-version entries with the values they have. *)
Theorem store_twice (st : State) (pkg : Package) :
  keys_distinct pkg ->
  truthy (version pkg) = true ->
  cmp (version pkg) (version pkg) <> 1%Z ->
  store pkg (store pkg st) = store pkg st.
Proof.
  intros ND Ht Hcmp.
  assert (Hself : semverGt (version pkg) (version pkg) = false)
    by (unfold semverGt; now apply Z.eqb_neq).
  assert (L2 : isLatest_of pkg (_getLatestVersion (store pkg st) (name pkg)) = false).
  { destruct (isLatest_of pkg (_getLatestVersion st (name pkg))) eqn:L1.
    - rewrite (getLatestVersion_after_latest st pkg L1).
      unfold isLatest_of. now rewrite Ht.
    - rewrite getLatestVersion_other by now right. assumption. }
  assert (Hdb : db (store pkg (store pkg st)) = db (store pkg st)).
  { apply map_eq. intros k.
    destruct (decide (Exists (fun op => op_key op = k) (store_batch pkg false)))
      as [E|N].
    - apply Exists_exists in E as (op & Hin & Hkey).
      apply list_elem_of_In in Hin. subst k.
      destruct (store_batch_in pkg false op Hin)
        as [(t & d & r & parsed & Hd & E & [->|[F _]])|[->|[F _]]];
        try discriminate F; cbn [op_key].
      + destruct (store_index_lookups (store pkg st) pkg t d r parsed ND Hd E)
          as [-> _].
        now destruct (store_index_lookups st pkg t d r parsed ND Hd E) as [-> _].
      + now rewrite !store_pkg_lookup.
    - unfold store at 1. rewrite L2. cbn [db]. apply apply_batch_notin.
      intros op Hin Hkey. apply N, Exists_exists. exists op.
      split; [now apply list_elem_of_In|assumption]. }
  assert (Hlru : lru (store pkg (store pkg st)) = lru (store pkg st)).
  { unfold store at 1. now rewrite L2. }
  destruct (store pkg (store pkg st)) as [d l], (store pkg st) as [d0 l0].
  cbn [db lru] in *. congruence.
Qed.

Lemma run_call_keeps_key st c k :
  starts_with "!index-latest!" k = false ->
  is_Some (db st !! k) -> is_Some (db (run_call st c) !! k).
Proof.
  intros F Hk. destruct c as [pkg|qname range_text o|ename]; cbn [run_call].
  - unfold store. cbn [db]. apply apply_batch_puts; [|assumption].
    intros op. apply store_batch_puts.
  - destruct (query_effect qname range_text o st k) as [_ [->|(_ & _ & F')]];
      [assumption|congruence].
  - assumption.
Qed.

(** X10. Only entries of the latest index are ever deleted.  Through every
    sequence of [store] and [query] calls and cache evictions, a bound key
    that does not start with [!index-latest!] stays bound: manifests, latest
    manifests and latest version numbers are overwritten at most. *)
Theorem only_latest_index_is_deleted (calls : list Call) (st : State) (k : string) :
  starts_with "!index-latest!" k = false ->
  is_Some (db st !! k) -> is_Some (db (run_calls calls st) !! k).
Proof.
  revert st. induction calls as [|c calls IH]; intros st F Hk; [assumption|].
  cbn [run_calls fold_left]. apply IH; [assumption|].
  now apply run_call_keeps_key.
Qed.

(** ** Invariants of the reachable states *)


Lemma run_call_latest_consistent st c :
  latest_consistent (db st) -> latest_consistent (db (run_call st c)).
Proof.
  intros IH. destruct c as [pkg|qname range_text o|ename]; cbn [run_call].
  - intros s v Hs.
    destruct (decide (Exists (fun op => op_key op = pkg_latest_key s)
                        (store_batch pkg
                           (isLatest_of pkg (_getLatestVersion st (name pkg))))))
      as [E|N].
    + apply Exists_exists in E as (op & Hin & Hkey).
      apply list_elem_of_In in Hin.
      apply (store_batch_pkg_latest_inv_any pkg _ op _ Hin) in Hkey as [L ->].
      destruct (store_latest_lookups st pkg L) as (Hp & Hv & _).
      rewrite Hv in Hs. injection Hs as <-. exists pkg. auto.
    + assert (Hp : db (store pkg st) !! pkg_latest_key s = db st !! pkg_latest_key s).
      { unfold store. cbn [db]. apply apply_batch_notin.
        intros op Hin Hkey. apply N, Exists_exists. exists op.
        split; [now apply list_elem_of_In|assumption]. }
      destruct (store_latest_version st pkg s) as [E|(L & -> & _)].
      * rewrite E in Hs. rewrite Hp. now apply IH.
      * exfalso. apply N, Exists_exists.
        exists (Put (pkg_latest_key (escape (name pkg))) (VPkg pkg)).
        split; [|reflexivity]. apply list_elem_of_In. rewrite L.
        apply store_batch_latest.
  - intros s v Hs. rewrite query_latest_version in Hs.
    destruct (IH s v Hs) as (pkg & Hp & Hv & Hn). exists pkg.
    split; [|auto].
    destruct (query_effect qname range_text o st (pkg_latest_key s))
      as [_ [->|(_ & _ & F)]]; [assumption|].
    rewrite (family_apart "!index-latest!" "!pkg-latest!" _ eq_refl eq_refl
               (pkg_latest_key_family s)) in F. discriminate.
  - exact IH.
Qed.

(** X12. In every state reached from the empty database, a latest version
    number comes with the latest manifest of that package: the manifest
    stored under the latest key has that version and that name. *)
Theorem latest_manifest_matches_version (st : State) :
  reachable st -> latest_consistent (db st).
Proof.
  induction 1 as [|st c _ IH _].
  - intros s v Hs. cbn [empty_state db] in Hs. rewrite lookup_empty in Hs.
    discriminate.
  - now apply run_call_latest_consistent.
Qed.

End WriterFacts.

(** * Further properties: the reader on its own *)

Lemma starts_with_split p k :
  starts_with p k = true -> exists rest, k = p +:+ rest.
Proof.
  revert k. induction p as [|x p IH]; intros k; [exists k; reflexivity|].
  destruct k as [|y k]; cbn [starts_with]; [discriminate|].
  intros E. apply andb_true_iff in E as [E1 E2].
  apply Ascii.eqb_eq in E1 as ->. destruct (IH k E2) as [rest ->].
  exists rest. reflexivity.
Qed.

Lemma starts_with_app_same p a b : starts_with (p +:+ a) (p +:+ b) = starts_with a b.
Proof.
  induction p as [|x p IH]; [reflexivity|].
  rewrite !append_cons. cbn [starts_with]. now rewrite Ascii.eqb_refl.
Qed.

(** Two fields without the separator that are followed by it agree when one
    key starts with the other field and its separator. *)
Lemma starts_with_field c a b x y :
  contains c a = false -> contains c b = false ->
  starts_with (a +:+ String c x) (b +:+ String c y) = true -> a = b.
Proof.
  revert b. induction a as [|u a IH]; intros [|w b]; cbn [contains];
    rewrite ?append_cons, ?append_nil_l; cbn [starts_with]; intros Ha Hb E.
  - reflexivity.
  - apply orb_false_iff in Hb as [Hw _].
    apply andb_true_iff in E as [E _].
    rewrite Ascii.eqb_sym in E. congruence.
  - apply orb_false_iff in Ha as [Hu _].
    apply andb_true_iff in E as [E _]. congruence.
  - apply orb_false_iff in Ha as [_ Ha]. apply orb_false_iff in Hb as [_ Hb].
    apply andb_true_iff in E as [E1 E2]. apply Ascii.eqb_eq in E1 as ->.
    f_equal. eauto.
Qed.

Lemma createReadStream_length m gt lt n :
  (length (createReadStream m gt lt (Some (S n))) <= S n)%nat.
Proof. unfold createReadStream. rewrite length_take. lia. Qed.

Lemma createReadStream_complete m gt lt k v :
  m !! k = Some v -> js_ltb gt k = true -> js_ltb k lt = true ->
  In (k, v) (createReadStream m gt lt None).
Proof.
  intros Hm Hgt Hlt. unfold createReadStream.
  apply (Permutation_in _ (Permutation_sym (merge_sort_Permutation key_le _))).
  apply filter_In. split.
  - now apply list_elem_of_In, elem_of_map_to_list.
  - unfold in_scan. cbn [fst]. now rewrite Hgt, Hlt.
Qed.

Lemma escape_char_first c :
  exists x rest, escape_char c = String x rest /\ N_of_ascii x < 255.
Proof.
  unfold escape_char. destruct (unescaped c) eqn:U.
  - exists c, EmptyString. split; [reflexivity|].
    unfold unescaped in U.
    repeat (apply orb_true_iff in U as [U|U]);
      repeat (apply andb_true_iff in U as [? U]);
      repeat match goal with
      | X : (_ <=? _) = true |- _ => apply N.leb_le in X
      | X : (_ =? _) = true |- _ => apply N.eqb_eq in X
      end; lia.
  - eexists _, _. split; [reflexivity|]. change (N_of_ascii "%") with 37. lia.
Qed.

(** The escaped form of a non-empty name is above the empty cursor and
    below ['\xff']. *)
Lemma escape_in_scan s rest :
  s <> EmptyString ->
  js_ltb EmptyString (escape s +:+ rest) = true /\
  js_ltb (escape s +:+ rest) xff = true.
Proof.
  destruct s as [|c s]; [congruence|]. intros _. cbn [escape].
  destruct (escape_char_first c) as (x & r & -> & Hx).
  rewrite !append_cons. split; [reflexivity|].
  unfold xff. cbn [js_ltb]. change (N_of_ascii "255") with 255.
  now apply N.compare_lt_iff in Hx as ->.
Qed.

Lemma query_records_prefix o name m k v :
  In (k, v) (query_records o name m) ->
  m !! k = Some v /\
  js_ltb (keyprefix_of o +:+ name +:+ "!" +:+ opt_gt o) k = true /\
  js_ltb k (keyprefix_of o +:+ name +:+ "!" +:+ xff) = true /\
  starts_with (keyprefix_of o +:+ name +:+ "!") k = true.
Proof.
  unfold query_records. intros Hin.
  apply createReadStream_in in Hin as (Hm & Hgt & Hlt).
  repeat split; try assumption.
  pose proof (scan_prefix (keyprefix_of o +:+ name +:+ "!") (opt_gt o) k) as P.
  rewrite !append_assoc in P. auto.
Qed.

Section ReaderFacts.
Context `{Modules}.

(** X13. What a query scans.  Every record of the read stream is bound in
    the store, and its key is the key prefix of the query, the escaped name
    and ['!'], followed by a remainder strictly after the cursor [opts.gt]
    and strictly before ['\xff']. *)
Theorem scanned_records_shape (o : Opts) (name : string)
    (m : gmap string Value) (k : string) (v : Value) :
  In (k, v) (query_records o (escape name) m) ->
  m !! k = Some v /\
  exists rest,
    k = keyprefix_of o +:+ escape name +:+ "!" +:+ rest /\
    js_ltb (opt_gt o) rest = true /\ js_ltb rest xff = true.
Proof.
  intros Hin. apply query_records_prefix in Hin as (Hm & Hgt & Hlt & P).
  split; [assumption|].
  apply starts_with_split in P as [rest Hk]. rewrite !append_assoc in Hk.
  subst k. exists rest. split; [reflexivity|].
  rewrite !js_ltb_app_same in Hgt, Hlt. auto.
Qed.

Lemma kind_prefix_apart o t x y :
  t = "dep" \/ t = "dev" ->
  starts_with ((if opt_devDependencies o then "dev!" else "dep!") +:+ x)
              (t +:+ "!" +:+ y) = true ->
  t = (if opt_devDependencies o then "dev" else "dep") /\
  starts_with x y = true.
Proof.
  intros [-> | ->]; destruct (opt_devDependencies o);
    rewrite !append_cons, !append_nil_l; cbn [starts_with Ascii.eqb Bool.eqb andb];
    intros E; try discriminate; auto.
Qed.

(** X14. A query sees the entries of its own dependency and kind only.
    When a scanned key is an index key as [store] writes them, for a
    dependency [d] of kind [t], then [t] is the kind the query asks for and
    [d] is the name it asks for. *)
Theorem scanned_entry_is_of_the_dependency (o : Opts) (name : string)
    (m : gmap string Value) (k : string) (v : Value) (t d rest : string) :
  In (k, v) (query_records o (escape name) m) ->
  t = "dep" \/ t = "dev" ->
  k = (if opt_all o then "!index!" else "!index-latest!") +:+
      t +:+ "!" +:+ escape d +:+ "!" +:+ rest ->
  t = (if opt_devDependencies o then "dev" else "dep") /\ d = name.
Proof.
  intros Hin Ht Hk.
  apply query_records_prefix in Hin as (_ & _ & _ & P).
  rewrite Hk in P. unfold keyprefix_of in P.
  rewrite !append_assoc, starts_with_app_same in P.
  apply kind_prefix_apart in P as [-> P]; [|assumption].
  split; [reflexivity|]. apply escape_inj. symmetry.
  apply (starts_with_field "!" (escape name) (escape d) EmptyString rest);
    auto using escape_no_bang.
Qed.

(** X15. A query without limit and cursor scans every entry of its
    dependency.  Each key bound in the store that is the key prefix, the
    escaped name, ['!'] and the escaped name of a dependent (not empty),
    followed by anything, is among the records. *)
Theorem every_entry_is_scanned (o : Opts) (name dependent rest : string)
    (m : gmap string Value) (v : Value) :
  opt_limit o = None -> opt_gt o = EmptyString ->
  dependent <> EmptyString ->
  m !! (keyprefix_of o +:+ escape name +:+ "!" +:+ escape dependent +:+ rest) =
    Some v ->
  In (keyprefix_of o +:+ escape name +:+ "!" +:+ escape dependent +:+ rest, v)
     (query_records o (escape name) m).
Proof.
  intros Hl Hg Hd Hm. unfold query_records. rewrite Hl, Hg.
  destruct (escape_in_scan dependent rest Hd) as [A B].
  apply createReadStream_complete; [assumption| |];
    now rewrite !js_ltb_app_same.
Qed.

(** ** What a query returns *)

Lemma filter_emit o name bounds data m pkg m' :
  filter o name bounds data m = (Emit pkg, m') ->
  m' = m /\
  m !! ((if opt_all o then "!pkg!" else "!pkg-latest!") +:+ after_last "!" data.1) =
    Some (VPkg pkg) /\
  (opt_all o = false -> still_declares o name pkg = true).
Proof.
  unfold filter.
  destruct (match bounds with
            | Some (lquery, uquery) =>
                match sets_of o data.2 with
                | Some sets => Some (match_ sets lquery uquery)
                | None => None
                end
            | None => Some true
            end) as [[|]|]; try discriminate.
  destruct (m !! ((if opt_all o then "!pkg!" else "!pkg-latest!") +:+
                  after_last "!" data.1)) as [[p| | |]|]; try discriminate.
  destruct (opt_all o) eqn:Ea.
  - intros E. injection E as <- <-. repeat split. discriminate.
  - destruct (still_declares o name p) eqn:S.
    + intros E. injection E as <- <-. auto.
    + destruct (m !! latest_version_key (after_last "!" data.1)) as [[|v| |]|];
        try discriminate.
      destruct (String.eqb v (version p)); discriminate.
Qed.

Lemma pkg_prefix o x :
  starts_with "!pkg" ((if opt_all o then "!pkg!" else "!pkg-latest!") +:+ x) = true.
Proof. now destruct (opt_all o). Qed.

Lemma run_filter_sound o name bounds (P : Package -> Prop)
    (m0 : gmap string Value) :
  (forall key pkg,
     m0 !! ((if opt_all o then "!pkg!" else "!pkg-latest!") +:+ key) =
       Some (VPkg pkg) ->
     (opt_all o = false -> still_declares o name pkg = true) -> P pkg) ->
  forall records emitted (m : gmap string Value) out err,
    (forall d, In d records ->
       starts_with (if opt_all o then "!index!" else "!index-latest!") d.1 = true) ->
    (forall k, starts_with "!pkg" k = true -> m !! k = m0 !! k) ->
    Forall P emitted ->
    (run_filter o name bounds records emitted m).1 = Streamed out err ->
    Forall P out /\ (length out <= length emitted + length records)%nat.
Proof.
  intros HP records. induction records as [|data records IH];
    intros emitted m out err Hrec Hm Hem; cbn [run_filter].
  - cbn [fst]. intros E. injection E as <- <-. split; [assumption|lia].
  - assert (Hidx : starts_with "!pkg" data.1 = false).
    { assert (F := Hrec data (or_introl eq_refl)).
      destruct (opt_all o).
      - exact (family_apart "!pkg" "!index!" _ eq_refl eq_refl F).
      - exact (family_apart "!pkg" "!index-latest!" _ eq_refl eq_refl F). }
    assert (Hrec' : forall d, In d records ->
              starts_with (if opt_all o then "!index!" else "!index-latest!") d.1
              = true) by (intros; apply Hrec; now right).
    pose proof (filter_effect o name bounds data m) as Hf.
    destruct (filter o name bounds data m) as [step m'] eqn:Ef.
    cbn [fst snd] in Hf.
    assert (Hm' : forall k, starts_with "!pkg" k = true -> m' !! k = m0 !! k).
    { intros k Hk. rewrite <- (Hm k Hk).
      destruct Hf as [->|(-> & _)]; [reflexivity|].
      apply lookup_delete_ne. intros <-. congruence. }
    destruct step as [|pkg|e].
    + intros E. destruct (IH emitted m' out err Hrec' Hm' Hem E) as [A B].
      split; [assumption|cbn [length]; lia].
    + apply filter_emit in Ef as (_ & Hp & Hs).
      rewrite (Hm _ (pkg_prefix o _)) in Hp.
      intros E.
      destruct (IH (emitted ++ [pkg]) m' out err Hrec' Hm') as [A B];
        [|assumption|].
      * apply Forall_app. split; [assumption|].
        apply List.Forall_cons; [eauto|apply List.Forall_nil].
      * split; [assumption|]. rewrite length_app in B. cbn [length] in *. lia.
    + cbn [fst]. intros E. injection E as <- <-.
      split; [assumption|cbn [length]; lia].
Qed.

Lemma query_streamed name range_text o st out err :
  (query name range_text o st).1 = Streamed out err ->
  exists bounds,
    (run_filter o (escape name) bounds
       (query_records o (escape name) (db st)) [] (db st)).1 = Streamed out err.
Proof.
  unfold query.
  destruct (semver_Range range_text) as [parsed|]; [|discriminate].
  destruct (negb (length (set parsed) =? 1)%nat); [discriminate|].
  destruct (query_bounds parsed) as [bounds|e]; [|discriminate].
  intros E. exists bounds.
  destruct (run_filter o (escape name) bounds
              (query_records o (escape name) (db st)) [] (db st)) as [out' m'].
  exact E.
Qed.


(** X17. [opts.limit] bounds the result: with a limit that is not zero a
    query emits at most that many manifests. *)
Theorem query_respects_limit (name range_text : string) (o : Opts)
    (st : State) (n : nat) (out : list Package) (err : option StreamError) :
  opt_limit o = Some (S n) ->
  (query name range_text o st).1 = Streamed out err ->
  (length out <= S n)%nat.
Proof.
  intros Hl E. apply query_streamed in E as [bounds E].
  destruct (run_filter_sound o (escape name) bounds (fun _ => True) (db st)
              (fun _ _ _ _ => I) (query_records o (escape name) (db st))
              [] (db st) out err) as [_ B]; try exact E.
  - intros [k v] Hin. cbn [fst]. now apply query_records_in in Hin as [_ F].
  - reflexivity.
  - apply List.Forall_nil.
  - cbn [length] in B. unfold query_records in B. rewrite Hl in B.
    pose proof (createReadStream_length (db st)
                  (keyprefix_of o +:+ escape name +:+ "!" +:+ opt_gt o)
                  (keyprefix_of o +:+ escape name +:+ "!" +:+ xff) n).
    lia.
Qed.

End ReaderFacts.

(** * Further properties: wildcards and the outcome of [query] *)

Section WildcardFacts.
Context `{Modules}.
Variable bound : N.
Hypothesis Hhex : pack_is_hex bound.

Lemma push_comparator_packed set c :
  0 < bound -> comparator_below bound c ->
  Forall (fun s => exists v, s = lexSemver v /\ below bound v) set.1 ->
  Forall (fun s => exists v, s = lexSemver v /\ below bound v) set.2 ->
  Forall (fun s => exists v, s = lexSemver v /\ below bound v)
         (push_comparator set c).1 /\
  Forall (fun s => exists v, s = lexSemver v /\ below bound v)
         (push_comparator set c).2.
Proof.
  intros Pos B F1 F2. unfold push_comparator.
  assert (Z0 : below bound zero)
    by (unfold below, zero; cbn [major minor patch]; lia).
  destruct B as [A|[B1 B2]].
  - rewrite A. cbn [fst snd]. split; [|assumption].
    apply Forall_snoc; eauto.
  - destruct (operator c); cbn [fst snd]; split; try assumption;
      apply Forall_snoc; eauto.
Qed.

Lemma encode_group_packed comps :
  0 < bound -> Forall (comparator_below bound) comps ->
  Forall (fun s => exists v, s = lexSemver v /\ below bound v) (encode_group comps).1 /\
  Forall (fun s => exists v, s = lexSemver v /\ below bound v) (encode_group comps).2.
Proof.
  intros Pos. unfold encode_group.
  assert (G : forall set,
            Forall (fun s => exists v, s = lexSemver v /\ below bound v) set.1 ->
            Forall (fun s => exists v, s = lexSemver v /\ below bound v) set.2 ->
            Forall (comparator_below bound) comps ->
            Forall (fun s => exists v, s = lexSemver v /\ below bound v)
                   (fold_left push_comparator comps set).1 /\
            Forall (fun s => exists v, s = lexSemver v /\ below bound v)
                   (fold_left push_comparator comps set).2).
  { induction comps as [|c comps IH]; intros set F1 F2 B; [now split|].
    inversion B; subst. cbn [fold_left].
    destruct (push_comparator_packed set c) as [F1' F2']; auto. }
  intros B. apply G; [apply List.Forall_nil|apply List.Forall_nil|assumption].
Qed.

(** X18. The wildcard shortcut agrees with [match].  [query] skips [match]
    for a wildcard range; with the bounds [normalize] gives for the
    comparator that matches everything, the two sentinels, [match] answers
    [true] on every stored value that has a group. *)
Theorem wildcard_bounds_match_all (sets : list (list Comparator)) :
  0 < bound ->
  sets <> [] ->
  Forall (Forall (comparator_below bound)) sets ->
  match_ (encode sets) (lquery_of []) (uquery_of []) = true.
Proof.
  intros Pos Hne B. destruct sets as [|R sets]; [congruence|].
  inversion B as [|? ? BR _]; subst.
  apply match_some_group. exists (encode_group R). split; [now left|].
  apply match_group_spec.
  destruct (encode_group_packed R Pos BR) as [F1 F2].
  change (lquery_of []) with x00. change (uquery_of []) with xff.
  unfold spec_group_overlaps. repeat split.
  - intros [_ E]. discriminate E.
  - intros [_ E]. discriminate E.
  - eapply Forall_impl; [exact F1|]. cbn beta. intros l (v & -> & Bv).
    unfold js_gtb. now apply (lexSemver_below_xff bound Hhex).
  - eapply Forall_impl; [exact F2|]. cbn beta. intros u (v & -> & Bv).
    now apply (lexSemver_above_x00 bound Hhex).
Qed.

End WildcardFacts.

Section OutcomeFacts.
Context `{Modules}.

(** X19. When [query] returns a stream.  It does not throw exactly when the
    range text parses, to one group, and either the formatted text is empty
    (a wildcard) or the group is one comparator, or a lower comparator
    followed by an upper one. *)
Theorem query_streams_iff (name range_text : string) (o : Opts) (st : State) :
  (exists out err, (query name range_text o st).1 = Streamed out err) <->
  (exists parsed comparators,
     semver_Range range_text = Some parsed /\
     set parsed = [comparators] /\
     (range parsed = EmptyString \/ accepted_shape comparators)).
Proof.
  unfold query.
  destruct (semver_Range range_text) as [parsed|];
    [|split; [intros (? & ? & E); discriminate
             |intros (? & ? & E & _); discriminate]].
  assert (Hrun : forall bounds, exists out err,
            (let '(out, m') :=
               run_filter o (escape name) bounds
                 (query_records o (escape name) (db st)) [] (db st) in
             (out, {| db := m'; lru := lru st |})).1 = Streamed out err).
  { intros bounds.
    assert (G : forall records emitted m, exists out err,
              (run_filter o (escape name) bounds records emitted m).1 =
              Streamed out err).
    { induction records as [|d records IH]; intros emitted m; cbn [run_filter];
        [eauto|].
      destruct (filter o (escape name) bounds d m) as [[|pkg|e] m']; eauto. }
    destruct (G (query_records o (escape name) (db st)) [] (db st))
      as (out & err & E).
    exists out, err.
    destruct (run_filter o (escape name) bounds
                (query_records o (escape name) (db st)) [] (db st)).
    exact E. }
  destruct (set parsed) as [|comparators [|g2 rest]] eqn:Hset;
    cbn [length Nat.eqb negb].
  - split; [intros (? & ? & E); discriminate|].
    intros (p & c & E & E' & _). injection E as <-. congruence.
  - unfold query_bounds. rewrite Hset.
    change (default [] ([comparators] !! 0%nat)) with comparators.
    destruct (String.eqb (range parsed) EmptyString) eqn:Hw.
    + split; [|intros _; apply Hrun].
      intros _. exists parsed, comparators. apply String.eqb_eq in Hw. auto.
    + apply String.eqb_neq in Hw.
      destruct (normalize comparators) as [norm|e] eqn:En; cbn.
      * split; [|intros _; apply Hrun].
        intros _. exists parsed, comparators. repeat split; try assumption.
        right. apply normalize_ok_iff. eauto.
      * split; [intros (? & ? & E); discriminate|].
        intros (p & c & E & E' & [Hr|Hs]); injection E as <-.
        -- congruence.
        -- rewrite Hset in E'. injection E' as <-.
           apply normalize_ok_iff in Hs as [norm Hn]. congruence.
  - split; [intros (? & ? & E); discriminate|].
    intros (p & c & E & E' & _). injection E as <-. congruence.
Qed.

End OutcomeFacts.

(** * Further properties: no two keys for one thing *)

Section InjectivityFacts.
Context `{Modules}.
Variable bound : N.
Hypothesis Hhex : pack_is_hex bound.
Hypothesis Hord : pack_order_preserving bound.

(** X20. [lexSemver] loses nothing: two version triples whose numbers
    [lexi.pack] orders and that are packed to the same string are the same
    triple. *)
Theorem lexSemver_injective (v1 v2 : SemVer) :
  below bound v1 -> below bound v2 ->
  lexSemver v1 = lexSemver v2 -> v1 = v2.
Proof.
  intros B1 B2 E. destruct (sv_trichotomy v1 v2) as [L|[E'|G]]; [|assumption|].
  - apply (lexSemver_lt bound Hhex Hord _ _ B1 B2) in L.
    rewrite E, js_ltb_irrefl in L. discriminate.
  - apply (lexSemver_lt bound Hhex Hord _ _ B2 B1) in G.
    rewrite E, js_ltb_irrefl in G. discriminate.
Qed.

End InjectivityFacts.

Lemma pkg_key_inj n1 v1 n2 v2 :
  contains "@" v1 = false -> contains "@" v2 = false ->
  pkg_key (escape n1) v1 = pkg_key (escape n2) v2 -> n1 = n2 /\ v1 = v2.
Proof.
  intros C1 C2 E. unfold pkg_key in E.
  assert (Ev : v1 = v2).
  { apply (f_equal (after_last "@")) in E.
    change ("@" +:+ v1) with (String "@" v1) in E.
    change ("@" +:+ v2) with (String "@" v2) in E.
    rewrite <- !append_assoc in E.
    now rewrite !after_last_sep in E by assumption. }
  subst v2. split; [|reflexivity].
  rewrite <- !append_assoc in E. do 2 apply append_inv_tail in E.
  apply append_inv_head in E. now apply escape_inj.
Qed.

Section ManifestFacts.
Context `{Modules}.

(** X21. A store touches the manifest of its own name and version only.
    For version texts without ['@'], the entry under the [!pkg!] key of
    another name or another version is after [store] what it was before. *)
Theorem other_manifests_untouched (st : State) (pkg : Package) (n v : string) :
  contains "@" v = false ->
  contains "@" (version pkg) = false ->
  (n, v) <> (name pkg, version pkg) ->
  db (store pkg st) !! pkg_key (escape n) v = db st !! pkg_key (escape n) v.
Proof.
  intros C1 C2 Hne. unfold store. cbn [db]. apply apply_batch_notin.
  intros op Hin Hkey. apply store_batch_in in Hin
    as [(t' & d' & r & parsed & Hd & E & [->|[L ->]])|[->|[L [->| ->]]]];
    cbn [op_key] in Hkey; try (clash Hkey).
  apply pkg_key_inj in Hkey as [E1 E2]; [|assumption..].
  apply Hne. now rewrite E1, E2.
Qed.

End ManifestFacts.

(** * The further properties on the example runs *)

Lemma reachable_after_a1 : @reachable example_modules after_a1.
Proof.
  change after_a1 with (@run_call example_modules empty_state (CStore a_1_0_0)).
  apply reachable_call; [apply reachable_empty|simpl; discriminate].
Qed.

Lemma reachable_after_a2 : @reachable example_modules after_a2.
Proof.
  change after_a2 with (@run_call example_modules after_a1 (CStore a_2_0_0)).
  apply reachable_call; [apply reachable_after_a1|simpl; discriminate].
Qed.


(** X5 on [t@1.0.0], which depends on [a~b]: the entry of a query on [a~b]
    is deleted. *)
Lemma escaped_name_entry_deleted_witness :
  db after_t !! index_latest_key "dep" "a%7Eb" "t" =
    Some (VLatest "1.0.0" [(["01!02!00"], ["02!00!00"])]) /\
  filter no_opts "a%7Eb" (Some ("01!05!00", "01!05!01"))
    (index_latest_key "dep" "a%7Eb" "t",
     VLatest "1.0.0" [(["01!02!00"], ["02!00!00"])])
    (db after_t) =
  (Skip, delete (index_latest_key "dep" "a%7Eb" "t") (db after_t)).
Proof.
  destruct (@escaped_name_entry_deleted example_modules empty_state t_1_0_0
              no_opts "dep" "a~b" "^1.2.0"
              {| range := ">=1.2.0 <2.0.0";
                 set := [[cmp_ OpGe 1 2 0; cmp_ OpLt 2 0 0]] |}
              (Some ("01!05!00", "01!05!01"))) as [W1 W2].
  - vm_compute. reflexivity.
  - split; apply (bool_decide_unpack _); vm_compute; exact I.
  - left. split; [reflexivity|]. simpl. now left.
  - reflexivity.
  - vm_compute. reflexivity.
  - reflexivity.
  - split; [exact W1|]. apply W2.
    eexists. split; [reflexivity|]. vm_compute. reflexivity.
Defined.



(** X8 on [a@2.0.0] stored after [a@1.0.0], for [a] and for [x]. *)
Lemma latest_version_after_store_witness :
  _getLatestVersion after_a2 "a" = Some "2.0.0" /\
  db after_a2 !! pkg_latest_key (escape "x") =
    db after_a1 !! pkg_latest_key (escape "x").
Proof.
  destruct (@latest_version_after_store example_modules after_a1 a_2_0_0 "a")
    as [W _].
  destruct (@latest_version_after_store example_modules after_a1 a_2_0_0 "x")
    as [_ W'].
  split; [exact W|]. apply W'. discriminate.
Defined.

(** X9 on [a@1.0.0] stored twice. *)
Lemma store_twice_witness :
  @store example_modules a_1_0_0 after_a1 = after_a1.
Proof.
  apply (@store_twice example_modules empty_state a_1_0_0).
  - split; apply (bool_decide_unpack _); vm_compute; exact I.
  - reflexivity.
  - vm_compute. discriminate.
Defined.

(** X10 on the manifest of [a@1.0.0] through a store and a query. *)
Lemma only_latest_index_is_deleted_witness :
  is_Some (db (@run_calls example_modules
                 [CStore a_2_0_0; CQuery "b" "1.5.0" no_opts] after_a1)
           !! pkg_key "a" "1.0.0").
Proof.
  apply (@only_latest_index_is_deleted example_modules).
  - reflexivity.
  - exists (VPkg a_1_0_0). vm_compute. reflexivity.
Defined.


(** X12 after [a@1.0.0] and [a@2.0.0]. *)
Lemma latest_manifest_matches_version_witness :
  latest_consistent (db after_a2).
Proof.
  apply (@latest_manifest_matches_version example_modules).
  apply reachable_after_a2.
Defined.

(** X13 on the one record of a query for [b] after [a@1.0.0]. *)
Lemma scanned_records_shape_witness :
  db after_a1 !! index_latest_key "dep" "b" "a" =
    Some (VLatest "1.0.0" [(["01!02!00"], ["02!00!00"])]) /\
  exists rest,
    index_latest_key "dep" "b" "a" =
      keyprefix_of no_opts +:+ escape "b" +:+ "!" +:+ rest /\
    js_ltb (opt_gt no_opts) rest = true /\ js_ltb rest xff = true.
Proof.
  apply (scanned_records_shape no_opts "b" (db after_a1)).
  vm_compute. left. reflexivity.
Defined.

(** X14 on the same record. *)
Lemma scanned_entry_is_of_the_dependency_witness :
  "dep" = (if opt_devDependencies no_opts then "dev" else "dep") /\ "b" = "b".
Proof.
  apply (scanned_entry_is_of_the_dependency no_opts "b" (db after_a1)
           (index_latest_key "dep" "b" "a")
           (VLatest "1.0.0" [(["01!02!00"], ["02!00!00"])]) "dep" "b" "a").
  - vm_compute. left. reflexivity.
  - now left.
  - reflexivity.
Defined.

(** X15 on the latest entry of [a] under [b]. *)
Lemma every_entry_is_scanned_witness :
  In (keyprefix_of no_opts +:+ escape "b" +:+ "!" +:+ escape "a" +:+ EmptyString,
      VLatest "1.0.0" [(["01!02!00"], ["02!00!00"])])
     (query_records no_opts (escape "b") (db after_a1)).
Proof.
  apply (every_entry_is_scanned no_opts "b" "a" EmptyString (db after_a1)).
  - reflexivity.
  - reflexivity.
  - discriminate.
  - vm_compute. reflexivity.
Defined.


(** X17 on a query with limit 1 over the two versions of [a]. *)
Lemma query_respects_limit_witness :
  (length [a_1_0_0] <= 1)%nat.
Proof.
  apply (@query_respects_limit example_modules "b" "*" limit_1 after_a11 0
           [a_1_0_0] None).
  - reflexivity.
  - vm_compute. reflexivity.
Defined.

(** X18 on the range [^1.2.0] as stored. *)
Lemma wildcard_bounds_match_all_witness :
  match_ (@encode example_modules [[cmp_ OpGe 1 2 0; cmp_ OpLt 2 0 0]])
         (@lquery_of example_modules []) (@uquery_of example_modules []) = true.
Proof.
  apply (@wildcard_bounds_match_all example_modules pack_integer_bound
           pack_hex_is_hex).
  - unfold pack_integer_bound. lia.
  - discriminate.
  - repeat (apply List.Forall_cons || apply List.Forall_nil); right;
      unfold below, inc_patch, pack_integer_bound; simpl; lia.
Defined.

(** X20 on [1.2.3]. *)
Lemma lexSemver_injective_witness :
  sv 1 2 3 = sv 1 2 3.
Proof.
  apply (@lexSemver_injective example_modules pack_integer_bound
           pack_hex_is_hex pack_hex_order_preserving (sv 1 2 3) (sv 1 2 3)).
  - unfold below, pack_integer_bound; simpl; lia.
  - unfold below, pack_integer_bound; simpl; lia.
  - reflexivity.
Defined.

(** X21 on the manifest of [a@1.0.0] when [a@2.0.0] is stored. *)
Lemma other_manifests_untouched_witness :
  db after_a2 !! pkg_key (escape "a") "1.0.0" =
    db after_a1 !! pkg_key (escape "a") "1.0.0".
Proof.
  apply (@other_manifests_untouched example_modules after_a1 a_2_0_0 "a" "1.0.0").
  - reflexivity.
  - reflexivity.
  - discriminate.
Defined.
